(** * useTarefas: the task list composable of the todo application

    A shallow embedding of [src/composables/useTarefas.js] (the Vue
    composable that owns the task list, the active filter, the derived
    filtered view and the synchronisation with [localStorage]) together
    with the parts of the JavaScript platform it calls:
    [String.prototype.trim], [JSON.stringify], [JSON.parse], the
    [localStorage] key-value store and the deep watcher of Vue.

    Conventions of the embedding.
    - A JavaScript string is the list of its UTF-16 code units, each an [N].
    - A task is the record [{ id, titulo, concluida }] built by
      [adicionarTarefa]; [id] is the integer returned by [Date.now()].
    - [Date.now()] is an input of the operation that reads it.
    - The reactive array, the filter ref, [localStorage] and the queue of
      the watcher are fields of one explicit state, [Mundo].

    The other composables, [useTema] and [useContador], and the setup of
    [App.vue] that puts them on one [localStorage], follow the task store;
    their properties are in the last part of the file. *)

From Stdlib Require Import Ascii String ZArith NArith Lia Decimal DecimalFacts DecimalPos DecimalN DecimalZ.
From stdpp Require Import base option list sorting gmap strings.

Set Warnings "-register-all".
Local Open Scope N_scope.

(** ** JavaScript strings *)

Abbreviation jsstring := (list N).

Module JS.

(** Code units of an ASCII literal of the source text. *)
Fixpoint str (s : string) : jsstring :=
  match s with
  | EmptyString => []
  | String a r => Ascii.N_of_ascii a :: str r
  end.

(** WhiteSpace and LineTerminator code points of ECMAScript, the ones
    [String.prototype.trim] strips. All of them are single code units. *)
Definition isWhiteSpace (c : N) : bool :=
  (c =? 0x09) || (c =? 0x0A) || (c =? 0x0B) || (c =? 0x0C) || (c =? 0x0D)
  || (c =? 0x20) || (c =? 0xA0) || (c =? 0x1680)
  || ((0x2000 <=? c) && (c <=? 0x200A))
  || (c =? 0x2028) || (c =? 0x2029) || (c =? 0x202F) || (c =? 0x205F)
  || (c =? 0x3000) || (c =? 0xFEFF).

Fixpoint trimStart (s : jsstring) : jsstring :=
  match s with
  | [] => []
  | c :: r => if isWhiteSpace c then trimStart r else s
  end.

Definition trimEnd (s : jsstring) : jsstring := rev (trimStart (rev s)).

(** [s.trim()] *)
Definition trim (s : jsstring) : jsstring := trimEnd (trimStart s).

(** ToBoolean on a string: the empty string is the only falsy one. *)
Definition truthy (s : jsstring) : bool :=
  match s with [] => false | _ :: _ => true end.

(** *** Number to string, for the integers [Date.now()] returns *)

(** [Number.MAX_SAFE_INTEGER]: up to it every integer is a Number and
    prints as its decimal digits. *)
Definition MAX_SAFE_INTEGER : Z := (2 ^ 53 - 1)%Z.

Definition seguro (z : Z) : Prop := (Z.abs z <= MAX_SAFE_INTEGER)%Z.

Definition segurob (z : Z) : bool := (Z.abs z <=? MAX_SAFE_INTEGER)%Z.

Fixpoint digitos_uint (u : uint) : jsstring :=
  match u with
  | Nil => []
  | D0 r => 48 :: digitos_uint r
  | D1 r => 49 :: digitos_uint r
  | D2 r => 50 :: digitos_uint r
  | D3 r => 51 :: digitos_uint r
  | D4 r => 52 :: digitos_uint r
  | D5 r => 53 :: digitos_uint r
  | D6 r => 54 :: digitos_uint r
  | D7 r => 55 :: digitos_uint r
  | D8 r => 56 :: digitos_uint r
  | D9 r => 57 :: digitos_uint r
  end.

(** [Number::toString] of an integer: a minus sign for a negative one,
    then the decimal digits without leading zero. *)
Definition Number_toString (z : Z) : jsstring :=
  match Z.to_int z with
  | Pos u => digitos_uint u
  | Neg u => 45 :: digitos_uint u
  end.

(** *** QuoteJSONString *)

Definition hexDigit (d : N) : N :=
  if d <? 10 then 48 + d else 87 + d.

(** [UnicodeEscape]: backslash, u and four lower-case hexadecimal digits. *)
Definition UnicodeEscape (c : N) : jsstring :=
  [92; 117; hexDigit (c / 4096 mod 16); hexDigit (c / 256 mod 16);
   hexDigit (c / 16 mod 16); hexDigit (c mod 16)].

Definition leadingSurrogate (c : N) : bool := (0xD800 <=? c) && (c <=? 0xDBFF).
Definition trailingSurrogate (c : N) : bool := (0xDC00 <=? c) && (c <=? 0xDFFF).

(** One code unit that is not part of a surrogate pair. *)
Definition quoteUnit (c : N) : jsstring :=
  if c =? 0x08 then [92; 98]
  else if c =? 0x09 then [92; 116]
  else if c =? 0x0A then [92; 110]
  else if c =? 0x0C then [92; 102]
  else if c =? 0x0D then [92; 114]
  else if c =? 0x22 then [92; 34]
  else if c =? 0x5C then [92; 92]
  else if (c <? 0x20) || leadingSurrogate c || trailingSurrogate c
       then UnicodeEscape c
  else [c].

(** The characters between the quotes: a leading surrogate followed by a
    trailing one is a pair and is copied; a lone surrogate is escaped. *)
Fixpoint quoteBody (s : jsstring) : jsstring :=
  match s with
  | [] => []
  | c :: r =>
      if leadingSurrogate c then
        match r with
        | d :: r' =>
            if trailingSurrogate d then c :: d :: quoteBody r'
            else quoteUnit c ++ quoteBody r
        | [] => quoteUnit c
        end
      else quoteUnit c ++ quoteBody r
  end.

Definition QuoteJSONString (s : jsstring) : jsstring :=
  34 :: quoteBody s ++ [34].

End JS.

(** ** JSON.parse

    The grammar of ECMA-404 as [JSON.parse] reads it, over code units. The
    result is the tree of the text: object members are kept in the order of
    the text. A numeral that denotes an integer up to
    [Number.MAX_SAFE_INTEGER] in magnitude carries that integer; any other
    numeral (a fraction, an exponent, a larger magnitude) is a Number
    outside the integers of this model and is kept as [JNumOutro]. *)

Module JSON.

Inductive Valor : Type :=
| JNull
| JBool (b : bool)
| JNum (z : Z)
| JNumOutro
| JStr (s : jsstring)
| JArr (elementos : list Valor)
| JObj (membros : list (jsstring * Valor)).

(** Outcome of reading a prefix of the text. [Esgotado] is the recursion
    bound of [lerValor] running out; [parse] gives it a bound it never
    reaches. *)
Inductive Leitura (A : Type) : Type :=
| Lido (a : A) (resto : jsstring)
| ErroSintaxe
| Esgotado.
Arguments Lido {A} a resto.
Arguments ErroSintaxe {A}.
Arguments Esgotado {A}.

Definition ligar {A B} (x : Leitura A) (k : A -> jsstring -> Leitura B) : Leitura B :=
  match x with
  | Lido a r => k a r
  | ErroSintaxe => ErroSintaxe
  | Esgotado => Esgotado
  end.

Notation "x >>= k" := (ligar x k) (at level 58, left associativity).

(** JSON white space: tab, line feed, carriage return, space. *)
Definition isJSONWhiteSpace (c : N) : bool :=
  (c =? 0x09) || (c =? 0x0A) || (c =? 0x0D) || (c =? 0x20).

Fixpoint saltarBrancos (s : jsstring) : jsstring :=
  match s with
  | [] => []
  | c :: r => if isJSONWhiteSpace c then saltarBrancos r else s
  end.

Fixpoint tirarPrefixo (p s : jsstring) : option jsstring :=
  match p, s with
  | [], _ => Some s
  | a :: p', b :: s' => if a =? b then tirarPrefixo p' s' else None
  | _ :: _, [] => None
  end.

(** *** Strings *)

Definition hexValor (c : N) : option N :=
  if (48 <=? c) && (c <=? 57) then Some (c - 48)
  else if (97 <=? c) && (c <=? 102) then Some (c - 87)
  else if (65 <=? c) && (c <=? 70) then Some (c - 55)
  else None.

(** The character a two-character escape stands for. *)
Definition escapeSimples (e : N) : option N :=
  if e =? 34 then Some 34
  else if e =? 92 then Some 92
  else if e =? 47 then Some 47
  else if e =? 98 then Some 0x08
  else if e =? 102 then Some 0x0C
  else if e =? 110 then Some 0x0A
  else if e =? 114 then Some 0x0D
  else if e =? 116 then Some 0x09
  else None.

Definition juntar (c : N) (x : Leitura jsstring) : Leitura jsstring :=
  x >>= fun s r => Lido (c :: s) r.

(** The characters of a string, read after its opening quote, up to and
    including the closing quote. *)
Fixpoint lerCaracteres (s : jsstring) : Leitura jsstring :=
  match s with
  | [] => ErroSintaxe
  | c :: r =>
      if c =? 34 then Lido [] r
      else if c =? 92 then
        match r with
        | [] => ErroSintaxe
        | e :: r1 =>
            if e =? 117 then
              match r1 with
              | h1 :: h2 :: h3 :: h4 :: r2 =>
                  match hexValor h1, hexValor h2, hexValor h3, hexValor h4 with
                  | Some a, Some b, Some c', Some d =>
                      juntar (4096 * a + 256 * b + 16 * c' + d) (lerCaracteres r2)
                  | _, _, _, _ => ErroSintaxe
                  end
              | _ => ErroSintaxe
              end
            else
              match escapeSimples e with
              | Some x => juntar x (lerCaracteres r1)
              | None => ErroSintaxe
              end
        end
      else if c <? 0x20 then ErroSintaxe
      else juntar c (lerCaracteres r)
  end.

(** *** Numbers *)

Definition digito (c : N) : option (uint -> uint) :=
  if c =? 48 then Some D0 else if c =? 49 then Some D1
  else if c =? 50 then Some D2 else if c =? 51 then Some D3
  else if c =? 52 then Some D4 else if c =? 53 then Some D5
  else if c =? 54 then Some D6 else if c =? 55 then Some D7
  else if c =? 56 then Some D8 else if c =? 57 then Some D9
  else None.

(** The longest run of decimal digits at the head of the text. *)
Fixpoint lerDigitos (s : jsstring) : uint * jsstring :=
  match s with
  | [] => (Nil, [])
  | c :: r =>
      match digito c with
      | Some d => let '(u, r') := lerDigitos r in (d u, r')
      | None => (Nil, s)
      end
  end.

(** The integer part: a single zero, or digits that do not start with zero. *)
Definition parteInteira (u : uint) : bool :=
  match u with
  | Nil => false
  | D0 Nil => true
  | D0 _ => false
  | _ => true
  end.

(** An optional fraction: a point and at least one digit. The flag tells
    whether one was read. *)
Definition lerFracao (s : jsstring) : Leitura bool :=
  match s with
  | c :: r =>
      if c =? 46 then
        match lerDigitos r with
        | (Nil, _) => ErroSintaxe
        | (_, r') => Lido true r'
        end
      else Lido false s
  | [] => Lido false s
  end.

(** An optional exponent: e or E, an optional sign, at least one digit. *)
Definition lerExpoente (s : jsstring) : Leitura bool :=
  match s with
  | c :: r =>
      if (c =? 101) || (c =? 69) then
        let r1 := match r with
                  | g :: r0 => if (g =? 43) || (g =? 45) then r0 else r
                  | [] => r
                  end in
        match lerDigitos r1 with
        | (Nil, _) => ErroSintaxe
        | (_, r') => Lido true r'
        end
      else Lido false s
  | [] => Lido false s
  end.

(** The numeral after its sign. *)
Definition lerMagnitude (negativo : bool) (s1 : jsstring) : Leitura Valor :=
  let '(u, s2) := lerDigitos s1 in
  if parteInteira u then
    lerFracao s2 >>= fun fracao s3 =>
    lerExpoente s3 >>= fun expoente s4 =>
    let z := Z.of_int (if negativo then Neg u else Pos u) in
    if fracao || expoente || negb (JS.segurob z) then Lido JNumOutro s4
    else Lido (JNum z) s4
  else ErroSintaxe.

Definition lerNumero (s : jsstring) : Leitura Valor :=
  match s with
  | c :: r => if c =? 45 then lerMagnitude true r else lerMagnitude false s
  | [] => lerMagnitude false s
  end.

(** *** Values *)

Section Compostos.
(** The reader of one value, which skips the white space before it. *)
Variable ler : jsstring -> Leitura Valor.

(** What follows an element of an array: the closing bracket, or a comma
    and one more element. *)
Fixpoint lerElementos (n : nat) (s : jsstring) : Leitura (list Valor) :=
  match n with
  | O => Esgotado
  | S n' =>
      match saltarBrancos s with
      | [] => ErroSintaxe
      | c :: r =>
          if c =? 93 then Lido [] r
          else if c =? 44 then
            ler r >>= fun v r1 =>
            lerElementos n' r1 >>= fun l r2 =>
            Lido (v :: l) r2
          else ErroSintaxe
      end
  end.

(** One member of an object: a string, a colon, a value. *)
Definition lerMembro (s : jsstring) : Leitura (jsstring * Valor) :=
  match saltarBrancos s with
  | [] => ErroSintaxe
  | c :: r =>
      if c =? 34 then
        lerCaracteres r >>= fun k r1 =>
        match saltarBrancos r1 with
        | [] => ErroSintaxe
        | d :: r2 =>
            if d =? 58 then ler r2 >>= fun v r3 => Lido (k, v) r3
            else ErroSintaxe
        end
      else ErroSintaxe
  end.

(** What follows a member of an object: the closing brace, or a comma and
    one more member. *)
Fixpoint lerMembros (n : nat) (s : jsstring) : Leitura (list (jsstring * Valor)) :=
  match n with
  | O => Esgotado
  | S n' =>
      match saltarBrancos s with
      | [] => ErroSintaxe
      | c :: r =>
          if c =? 125 then Lido [] r
          else if c =? 44 then
            lerMembro r >>= fun m r1 =>
            lerMembros n' r1 >>= fun l r2 =>
            Lido (m :: l) r2
          else ErroSintaxe
      end
  end.
End Compostos.

Definition lerLiteral (p : jsstring) (v : Valor) (s : jsstring) : Leitura Valor :=
  match tirarPrefixo p s with
  | Some r => Lido v r
  | None => ErroSintaxe
  end.

Fixpoint lerValor (n : nat) (s : jsstring) : Leitura Valor :=
  match n with
  | O => Esgotado
  | S n' =>
      match saltarBrancos s with
      | [] => ErroSintaxe
      | c :: r =>
          if c =? 123 then
            match saltarBrancos r with
            | [] => ErroSintaxe
            | d :: r0 =>
                if d =? 125 then Lido (JObj []) r0
                else
                  lerMembro (lerValor n') r >>= fun m r1 =>
                  lerMembros (lerValor n') n' r1 >>= fun l r2 =>
                  Lido (JObj (m :: l)) r2
            end
          else if c =? 91 then
            match saltarBrancos r with
            | [] => ErroSintaxe
            | d :: r0 =>
                if d =? 93 then Lido (JArr []) r0
                else
                  lerValor n' r >>= fun v r1 =>
                  lerElementos (lerValor n') n' r1 >>= fun l r2 =>
                  Lido (JArr (v :: l)) r2
            end
          else if c =? 34 then
            lerCaracteres r >>= fun t r1 => Lido (JStr t) r1
          else if c =? 116 then lerLiteral (JS.str "rue") (JBool true) r
          else if c =? 102 then lerLiteral (JS.str "alse") (JBool false) r
          else if c =? 110 then lerLiteral (JS.str "ull") JNull r
          else if (c =? 45) || ((48 <=? c) && (c <=? 57)) then lerNumero (c :: r)
          else ErroSintaxe
      end
  end.

(** [JSON.parse(text)]: one value, white space around it, nothing else.
    [None] is the SyntaxError the call throws. *)
Definition parse (text : jsstring) : option Valor :=
  match lerValor (S (length text)) text with
  | Lido v r =>
      match saltarBrancos r with
      | [] => Some v
      | _ :: _ => None
      end
  | ErroSintaxe | Esgotado => None
  end.

End JSON.

(** ** Tasks and their serialisation *)

(** The object [{ id: Date.now(), titulo, concluida: false }] of
    [adicionarTarefa]. *)
Record Tarefa : Type := { id : Z; titulo : jsstring; concluida : bool }.

Global Instance Tarefa_eq_dec : EqDecision Tarefa.
Proof. solve_decision. Defined.

(** [JSON.stringify] of one task: its three own properties in the order
    of their creation, without white space. *)
Definition stringifyTarefa (t : Tarefa) : jsstring :=
  JS.str "{" ++ JS.QuoteJSONString (JS.str "id") ++ JS.str ":"
    ++ JS.Number_toString (id t)
  ++ JS.str "," ++ JS.QuoteJSONString (JS.str "titulo") ++ JS.str ":"
    ++ JS.QuoteJSONString (titulo t)
  ++ JS.str "," ++ JS.QuoteJSONString (JS.str "concluida") ++ JS.str ":"
    ++ JS.str (if concluida t then "true" else "false")
  ++ JS.str "}".

(** The elements of an array, separated by commas. *)
Fixpoint separados (l : list jsstring) : jsstring :=
  match l with
  | [] => []
  | [x] => x
  | x :: r => x ++ 44 :: separados r
  end.

(** [JSON.stringify(novasTarefas)] *)
Definition stringify (ts : list Tarefa) : jsstring :=
  91 :: separados (map stringifyTarefa ts) ++ [93].

(** The task a parsed object is, when it has the three properties of a
    task, in the order [stringify] writes them. *)
Definition tarefaDeValor (v : JSON.Valor) : option Tarefa :=
  match v with
  | JSON.JObj [(k1, JSON.JNum i); (k2, JSON.JStr s); (k3, JSON.JBool b)] =>
      if decide (k1 = JS.str "id" ∧ k2 = JS.str "titulo" ∧ k3 = JS.str "concluida")
      then Some {| id := i; titulo := s; concluida := b |}
      else None
  | _ => None
  end.

(** The task list a parsed value is: an array of tasks. *)
Definition tarefasDeValor (v : JSON.Valor) : option (list Tarefa) :=
  match v with
  | JSON.JArr l => mapM tarefaDeValor l
  | _ => None
  end.

(** ** The state *)

(** The reactive array [tarefas], the ref [filtro], the browser's
    [localStorage], and whether the job of the deep watcher on [tarefas]
    is queued. *)
Record Mundo : Type := {
  tarefas : list Tarefa;
  filtro : jsstring;
  localStorage : gmap jsstring jsstring;
  pendente : bool
}.

(** The key of the task list in [localStorage]. *)
Definition chave : jsstring := JS.str "tarefas".

Inductive Excecao : Type := SyntaxError.

(** What a call ends in: a value, an exception, or a JavaScript value the
    typed state has no counterpart for. *)
Inductive Resultado (A : Type) : Type :=
| Pronto (a : A)
| Lancou (e : Excecao)
| ForaDoModelo.
Arguments Pronto {A} a.
Arguments Lancou {A} e.
Arguments ForaDoModelo {A}.

(** [localStorage.getItem('tarefas') || '[]'] *)
Definition textoGuardado (ls : gmap jsstring jsstring) : jsstring :=
  match ls !! chave with
  | Some s => if JS.truthy s then s else JS.str "[]"
  | None => JS.str "[]"
  end.

(** [useTarefas()]: the initial state built from [localStorage]. *)
Definition useTarefas (ls : gmap jsstring jsstring) : Resultado Mundo :=
  match JSON.parse (textoGuardado ls) with
  | None => Lancou SyntaxError
  | Some v =>
      match tarefasDeValor v with
      | Some ts =>
          Pronto {| tarefas := ts; filtro := JS.str "todas";
                    localStorage := ls; pendente := false |}
      | None => ForaDoModelo
      end
  end.

(** ** The derived view *)

(** The computed [tarefasFiltradas], as a function of the collection and
    the filter. *)
Definition filtrar (f : jsstring) (ts : list Tarefa) : list Tarefa :=
  if decide (f = JS.str "ativas") then
    List.filter (fun tarefa => negb (concluida tarefa)) ts
  else if decide (f = JS.str "concluidas") then
    List.filter (fun tarefa => concluida tarefa) ts
  else ts.

Definition tarefasFiltradas (w : Mundo) : list Tarefa :=
  filtrar (filtro w) (tarefas w).

(** ** The operations *)

(** A write through the reactive proxy replaces the array and queues the
    watcher. *)
Definition escrever (ts : list Tarefa) (w : Mundo) : Mundo :=
  {| tarefas := ts; filtro := filtro w;
     localStorage := localStorage w; pendente := true |}.

(** [tarefas.push(t)] *)
Definition push (t : Tarefa) (w : Mundo) : Mundo :=
  escrever (tarefas w ++ [t]) w.

(** [tarefas.findIndex(p)]: the first index whose element satisfies [p];
    [None] is the -1 of JavaScript. *)
Fixpoint findIndex {A} (p : A -> bool) (l : list A) : option nat :=
  match l with
  | [] => None
  | x :: r => if p x then Some O else S <$> findIndex p r
  end.

(** [tarefas.splice(indice, 1)] *)
Definition splice1 (indice : nat) (w : Mundo) : Mundo :=
  escrever (delete indice (tarefas w)) w.

(** [adicionarTarefa(titulo)], with the value [agora] of [Date.now()]. *)
Definition adicionarTarefa (agora : Z) (titulo : jsstring) (w : Mundo) : Mundo :=
  if JS.truthy (JS.trim titulo) then
    push {| id := agora; titulo := titulo; concluida := false |} w
  else w.

(** [removerTarefa(id)] *)
Definition removerTarefa (i : Z) (w : Mundo) : Mundo :=
  match findIndex (fun tarefa => (id tarefa =? i)%Z) (tarefas w) with
  | Some indice => splice1 indice w
  | None => w
  end.

(** [filtro.value = f], as the buttons of the application do. *)
Definition definirFiltro (f : jsstring) (w : Mundo) : Mundo :=
  {| tarefas := tarefas w; filtro := f;
     localStorage := localStorage w; pendente := pendente w |}.

(** [tarefa.concluida = b] on the task at [indice], as the presentation
    layer does. The proxy triggers only when the value changes. *)
Definition definirConcluida (indice : nat) (b : bool) (w : Mundo) : Mundo :=
  match tarefas w !! indice with
  | Some t =>
      if decide (concluida t = b) then w
      else escrever (<[indice := {| id := id t; titulo := titulo t; concluida := b |}]> (tarefas w)) w
  | None => w
  end.

(** The callback of [watch(tarefas, ..., { deep: true })]. *)
Definition aoMudar (w : Mundo) : Mundo :=
  {| tarefas := tarefas w; filtro := filtro w;
     localStorage := <[chave := stringify (tarefas w)]> (localStorage w);
     pendente := false |}.

(** The flush of the scheduler after a handler: the queued watcher runs. *)
Definition esvaziarFila (w : Mundo) : Mundo :=
  if pendente w then aoMudar w else w.

(** One user action, run to completion. *)
Inductive Acao : Type :=
| Adicionar (agora : Z) (titulo : jsstring)
| Remover (i : Z)
| Marcar (indice : nat) (b : bool)
| Filtrar (f : jsstring).

Definition executar (a : Acao) (w : Mundo) : Mundo :=
  match a with
  | Adicionar agora titulo => adicionarTarefa agora titulo w
  | Remover i => removerTarefa i w
  | Marcar indice b => definirConcluida indice b w
  | Filtrar f => definirFiltro f w
  end.

Definition passo (w : Mundo) (a : Acao) : Mundo :=
  esvaziarFila (executar a w).

Definition correr (w : Mundo) (l : list Acao) : Mundo :=
  fold_left passo l w.

(** A serialised list, read back: [JSON.parse] and the typed view. *)
Definition desserializar (texto : jsstring) : option (list Tarefa) :=
  JSON.parse texto ≫= tarefasDeValor.

Global Instance Tarefa_countable : Countable Tarefa.
Proof.
  refine (inj_countable'
            (fun t => (id t, titulo t, concluida t))
            (fun '(i, s, b) => {| id := i; titulo := s; concluida := b |}) _).
  by intros [].
Defined.

(** The tree [JSON.parse] builds for the text of one task. *)
Definition valorDeTarefa (t : Tarefa) : JSON.Valor :=
  JSON.JObj [(JS.str "id", JSON.JNum (id t));
             (JS.str "titulo", JSON.JStr (titulo t));
             (JS.str "concluida", JSON.JBool (concluida t))].

(** The store holds the serialisation of the current collection. *)
Definition sincronizado (w : Mundo) : Prop :=
  localStorage w !! chave = Some (stringify (tarefas w)).

(** The state [useTarefas] builds when [localStorage] is empty. *)
Definition mundoVazio : Mundo :=
  {| tarefas := []; filtro := JS.str "todas"; localStorage := ∅; pendente := false |}.

(** A sequence of [adicionarTarefa] calls, each with its clock reading. *)
Definition adicionarTodas (chamadas : list (Z * jsstring)) (w : Mundo) : Mundo :=
  correr w (map (fun c => Adicionar (fst c) (snd c)) chamadas).

(** Whether [adicionarTarefa] accepts the title of a call. *)
Definition aceite (c : Z * jsstring) : bool := JS.truthy (JS.trim (snd c)).

(** The task an accepted call appends. *)
Definition tarefaNova (c : Z * jsstring) : Tarefa :=
  {| id := fst c; titulo := snd c; concluida := false |}.

(** The spec's wording of a filtered view: the subsequence of the tasks
    that satisfy [p], in their order. *)
Inductive Subsequencia (p : Tarefa -> bool) : list Tarefa -> list Tarefa -> Prop :=
| sub_fim : Subsequencia p [] []
| sub_fica t ts r : p t = true -> Subsequencia p ts r -> Subsequencia p (t :: ts) (t :: r)
| sub_sai t ts r : p t = false -> Subsequencia p ts r -> Subsequencia p (t :: ts) r.

(** ** useTema

    [src/composables/useTema.js]: the theme ref, the entry ['tema'] of
    [localStorage] and the class ['dark'] of [document.documentElement].
    [provide('tema', readonly(tema))] hands the same ref to descendant
    components and changes no state; it has no counterpart here. *)

(** The ref [tema]; the value the watcher on it saw last (its [oldValue]:
    the queued job calls the callback only when the ref holds another
    value by then); [localStorage]; [documentElement.classList], a set of
    tokens. *)
Record MundoTema : Type := {
  tema : jsstring;
  temaVisto : jsstring;
  armazenamento : gmap jsstring jsstring;
  classList : gset jsstring
}.

Definition chaveTema : jsstring := JS.str "tema".
Definition claro : jsstring := JS.str "claro".
Definition escuro : jsstring := JS.str "escuro".
Definition dark : jsstring := JS.str "dark".

(** [localStorage.getItem('tema') || 'claro'] *)
Definition temaGuardado (ls : gmap jsstring jsstring) : jsstring :=
  match ls !! chaveTema with
  | Some s => if JS.truthy s then s else claro
  | None => claro
  end.

(** [useTema()], on the [localStorage] and the class list it finds: the
    ref is created, and [classList.add('dark')] runs when the initial
    theme is ['escuro']. *)
Definition useTema (ls : gmap jsstring jsstring) (cl : gset jsstring) : MundoTema :=
  {| tema := temaGuardado ls;
     temaVisto := temaGuardado ls;
     armazenamento := ls;
     classList := if decide (temaGuardado ls = escuro) then {[dark]} ∪ cl else cl |}.

(** [alternarTema()]:
    [tema.value = tema.value === 'claro' ? 'escuro' : 'claro'] *)
Definition alternarTema (w : MundoTema) : MundoTema :=
  {| tema := if decide (tema w = claro) then escuro else claro;
     temaVisto := temaVisto w;
     armazenamento := armazenamento w;
     classList := classList w |}.

(** The callback of [watch(tema, ...)], called with the new theme. *)
Definition aoMudarTema (w : MundoTema) : MundoTema :=
  {| tema := tema w;
     temaVisto := tema w;
     armazenamento := <[chaveTema := tema w]> (armazenamento w);
     classList := if decide (tema w = escuro) then {[dark]} ∪ classList w
                  else classList w ∖ {[dark]} |}.

(** The flush of the scheduler: the job of the watcher compares the ref
    with the value it saw last. *)
Definition esvaziarFilaTema (w : MundoTema) : MundoTema :=
  if decide (tema w = temaVisto w) then w else aoMudarTema w.

(** A click on the theme button of [App.vue], run to completion. *)
Definition passoTema (w : MundoTema) : MundoTema :=
  esvaziarFilaTema (alternarTema w).

(** The store and the page agree with the ref, and no job is due. *)
Definition temaSincronizado (w : MundoTema) : Prop :=
  temaVisto w = tema w
  ∧ armazenamento w !! chaveTema = Some (tema w)
  ∧ (dark ∈ classList w <-> tema w = escuro).

(** ** useContador

    [src/composables/useContador.js]: a ref that the callback of
    [setInterval(..., 1000)] increments, until [onUnmounted] clears the
    interval. The timers of the browser are the set of the ids that are
    registered; the browser runs the callback of a registered id only. *)

Record MundoContador : Type := {
  contador : Z;
  intervalo : nat;
  temporizadores : gset nat
}.

(** [contador.value++] on a Number that holds an integer from 0 on: exact
    up to 2^53, where the successor is no Number and rounds back. *)
Definition incremento (z : Z) : Z :=
  if (z <? 2 ^ 53)%Z then (z + 1)%Z else z.

(** [useContador()], where [setInterval] returns the id [i] and registers
    it beside the timers that are there. *)
Definition useContador (i : nat) (ativos : gset nat) : MundoContador :=
  {| contador := 0; intervalo := i; temporizadores := {[i]} ∪ ativos |}.

Inductive EventoContador : Type :=
| Tique (i : nat)
| Desmontar.

(** What one event does: the tick of a registered timer runs its callback,
    which is the one of this composable when the id is [intervalo]; the
    hook of [onUnmounted] runs [clearInterval(intervalo)]. *)
Definition passoContador (w : MundoContador) (e : EventoContador) : MundoContador :=
  match e with
  | Tique i =>
      if decide (i ∈ temporizadores w ∧ i = intervalo w) then
        {| contador := incremento (contador w); intervalo := intervalo w;
           temporizadores := temporizadores w |}
      else w
  | Desmontar =>
      {| contador := contador w; intervalo := intervalo w;
         temporizadores := temporizadores w ∖ {[intervalo w]} |}
  end.

Definition correrContador (w : MundoContador) (l : list EventoContador) : MundoContador :=
  fold_left passoContador l w.

(** The ticks of the timer [i] in a sequence of events. *)
Definition tiques (i : nat) (l : list EventoContador) : nat :=
  length (List.filter (fun e => match e with Tique j => bool_decide (j = i) | Desmontar => false end) l).

Definition semDesmontar (l : list EventoContador) : Prop :=
  ∀ e, e ∈ l -> e ≠ Desmontar.

(** ** App.vue: the two composables on one [localStorage]

    [App.vue] calls [useTarefas()] and [useTema()] in one setup; its
    buttons call [adicionarTarefa] (through the form), write
    [filtro.value] and call [alternarTema]. *)

Record Aplicacao : Type := {
  tarefasApp : list Tarefa;
  filtroApp : jsstring;
  pendenteApp : bool;
  temaApp : jsstring;
  temaVistoApp : jsstring;
  classListApp : gset jsstring;
  localStorageApp : gmap jsstring jsstring
}.

(** The state of [useTarefas] inside the application. *)
Definition verTarefas (x : Aplicacao) : Mundo :=
  {| tarefas := tarefasApp x; filtro := filtroApp x;
     localStorage := localStorageApp x; pendente := pendenteApp x |}.

(** The state of [useTema] inside the application. *)
Definition verTema (x : Aplicacao) : MundoTema :=
  {| tema := temaApp x; temaVisto := temaVistoApp x;
     armazenamento := localStorageApp x; classList := classListApp x |}.

Definition comTarefas (w : Mundo) (x : Aplicacao) : Aplicacao :=
  {| tarefasApp := tarefas w; filtroApp := filtro w; pendenteApp := pendente w;
     temaApp := temaApp x; temaVistoApp := temaVistoApp x;
     classListApp := classListApp x; localStorageApp := localStorage w |}.

Definition comTema (t : MundoTema) (x : Aplicacao) : Aplicacao :=
  {| tarefasApp := tarefasApp x; filtroApp := filtroApp x; pendenteApp := pendenteApp x;
     temaApp := tema t; temaVistoApp := temaVisto t;
     classListApp := classList t; localStorageApp := armazenamento t |}.

(** The setup of [App.vue]: [useTarefas()], then [useTema()]. *)
Definition iniciarApp (ls : gmap jsstring jsstring) (cl : gset jsstring) : Resultado Aplicacao :=
  match useTarefas ls with
  | Pronto w =>
      let t := useTema (localStorage w) cl in
      Pronto {| tarefasApp := tarefas w; filtroApp := filtro w; pendenteApp := pendente w;
                temaApp := tema t; temaVistoApp := temaVisto t;
                classListApp := classList t; localStorageApp := armazenamento t |}
  | Lancou e => Lancou e
  | ForaDoModelo => ForaDoModelo
  end.

Inductive Evento : Type :=
| NasTarefas (a : Acao)
| CliqueTema.

Definition passoApp (x : Aplicacao) (e : Evento) : Aplicacao :=
  match e with
  | NasTarefas a => comTarefas (passo (verTarefas x) a) x
  | CliqueTema => comTema (passoTema (verTema x)) x
  end.

Definition correrApp (x : Aplicacao) (l : list Evento) : Aplicacao :=
  fold_left passoApp l x.

(** ** Auxiliary notions for the properties of the operations *)

(** The collection without the first task whose id is [i]. *)
Fixpoint semPrimeira (i : Z) (ts : list Tarefa) : list Tarefa :=
  match ts with
  | [] => []
  | t :: r => if (id t =? i)%Z then r else t :: semPrimeira i r
  end.

(** An action whose clock reading, if it has one, is an integer a Number
    holds exactly. *)
Definition acaoSegura (a : Acao) : Prop :=
  match a with
  | Adicionar agora _ => JS.seguro agora
  | _ => True
  end.

Definition idsSeguros (ts : list Tarefa) : Prop :=
  Forall (fun t => JS.seguro (id t)) ts.

(** ** Auxiliary notions for the properties of the reader *)

(** A reading that ended, and consumed at least one character of [s]. *)
Definition avanca {A} (x : JSON.Leitura A) (s : jsstring) : Prop :=
  match x with
  | JSON.Lido _ r => (length r < length s)%nat
  | JSON.ErroSintaxe => True
  | JSON.Esgotado => False
  end.

(** A reading that ended, within [s]. *)
Definition termina {A} (x : JSON.Leitura A) (s : jsstring) : Prop :=
  match x with
  | JSON.Lido _ r => (length r <= length s)%nat
  | JSON.ErroSintaxe => True
  | JSON.Esgotado => False
  end.

(** A text that does not start with a decimal digit. *)
Definition semDigito (r : jsstring) : Prop :=
  match r with [] => True | c :: _ => JSON.digito c = None end.

(** A character that ends the numeral before it. *)
Definition fimDeNumero (c : N) : Prop :=
  JSON.digito c = None ∧ c ≠ 46 ∧ c ≠ 101 ∧ c ≠ 69.

(** The elements of an array after the first, each behind its comma. *)
Definition seguintes (ts : list Tarefa) : jsstring :=
  concat (map (fun t => 44 :: stringifyTarefa t) ts).

(** What [useTarefas] builds from the store of [w] is [w] with the
    filter reset. *)
Definition recarregavel (w : Mundo) : Prop :=
  useTarefas (localStorage w)
  = Pronto {| tarefas := tarefas w; filtro := JS.str "todas";
              localStorage := localStorage w; pendente := false |}.

(** Every integer of the tree is one a Number holds exactly. *)
Fixpoint numerosSeguros (v : JSON.Valor) : Prop :=
  match v with
  | JSON.JNum z => JS.seguro z
  | JSON.JArr l =>
      (fix todos (l : list JSON.Valor) : Prop :=
         match l with [] => True | x :: r => numerosSeguros x ∧ todos r end) l
  | JSON.JObj m =>
      (fix todos (m : list (jsstring * JSON.Valor)) : Prop :=
         match m with [] => True | (_, x) :: r => numerosSeguros x ∧ todos r end) m
  | _ => True
  end.

(** What a reading returned, if it returned, satisfies [P]. *)
Definition lidoCom {A} (P : A -> Prop) (x : JSON.Leitura A) : Prop :=
  match x with JSON.Lido a _ => P a | _ => True end.

(** ** Auxiliary notions for the properties of the application *)

(** An event whose clock reading, if it has one, is an integer a Number
    holds exactly. *)
Definition eventoSeguro (e : Evento) : Prop :=
  match e with
  | NasTarefas a => acaoSegura a
  | CliqueTema => True
  end.

(** No job is due, and the store and the page agree with both refs. *)
Definition appSincronizada (x : Aplicacao) : Prop :=
  pendenteApp x = false ∧ sincronizado (verTarefas x) ∧ temaSincronizado (verTema x).

(** No job is due, and a new setup on the store of [x] would find the
    collection and the theme of [x]. *)
Definition appRecarregavel (x : Aplicacao) : Prop :=
  pendenteApp x = false ∧ temaVistoApp x = temaApp x
  ∧ idsSeguros (tarefasApp x) ∧ recarregavel (verTarefas x)
  ∧ temaGuardado (localStorageApp x) = temaApp x.

(** The application [App.vue] sets up on an empty store and a page
    without classes. *)
Definition appVazia : Aplicacao :=
  {| tarefasApp := []; filtroApp := JS.str "todas"; pendenteApp := false;
     temaApp := claro; temaVistoApp := claro; classListApp := ∅;
     localStorageApp := ∅ |}.

(** * Properties *)

(** ** Strings *)

Section Cadeias.

Lemma truthy_true (s : jsstring) : JS.truthy s = true <-> s ≠ [].
Proof. destruct s; simpl; split; intros; congruence. Qed.

Lemma truthy_false (s : jsstring) : JS.truthy s = false <-> s = [].
Proof. destruct s; simpl; split; intros; congruence. Qed.

End Cadeias.

(** ** The operations on the array *)

Section Operacoes.

Lemma findIndex_None {A} (p : A -> bool) (l : list A) :
  findIndex p l = None <-> ∀ x, x ∈ l -> p x = false.
Proof.
  induction l as [|a l IH]; simpl.
  - split; [intros _ x Hx; inversion Hx | done].
  - destruct (p a) eqn:Ha.
    + split; [done | intros H; specialize (H a (list_elem_of_here _ _)); congruence].
    + destruct (findIndex p l) eqn:Hf; simpl.
      * split; [done | intros H].
        assert (Some n = None) as Hn; [|done].
        apply IH. intros x Hx. apply H. by apply list_elem_of_further.
      * split; [intros _ x Hx | done].
        apply elem_of_cons in Hx as [-> | Hx]; [done | by apply IH].
Qed.

(** The index [findIndex] returns splits the list at the first match. *)
Lemma findIndex_Some {A} (p : A -> bool) (l : list A) (i : nat) :
  findIndex p l = Some i ->
  ∃ l1 x l2, l = l1 ++ x :: l2 ∧ length l1 = i ∧ p x = true
             ∧ (∀ y, y ∈ l1 -> p y = false) ∧ delete i l = l1 ++ l2.
Proof.
  revert i. induction l as [|a l IH]; simpl; intros i; [done|].
  destruct (p a) eqn:Ha.
  - intros [= <-]. exists [], a, l. repeat split; try done.
    intros y Hy. inversion Hy.
  - destruct (findIndex p l) as [j|] eqn:Hf; simpl; [|done].
    intros [= <-]. destruct (IH j eq_refl) as (l1 & x & l2 & -> & Hl & Hx & Hn & Hd).
    exists (a :: l1), x, l2. repeat split; simpl; try done.
    + by rewrite Hl.
    + intros y Hy. apply elem_of_cons in Hy as [-> | Hy]; [done | by apply Hn].
    + by rewrite Hd.
Qed.

Lemma tarefas_esvaziarFila w : tarefas (esvaziarFila w) = tarefas w.
Proof. unfold esvaziarFila. by destruct (pendente w). Qed.

Lemma pendente_esvaziarFila w : pendente (esvaziarFila w) = false.
Proof. unfold esvaziarFila. by destruct (pendente w) eqn:H. Qed.

Lemma esvaziarFila_quieto w : pendente w = false -> esvaziarFila w = w.
Proof. unfold esvaziarFila. by intros ->. Qed.

Lemma esvaziarFila_escrever ts w :
  sincronizado (esvaziarFila (escrever ts w)).
Proof. unfold sincronizado, esvaziarFila; simpl. by rewrite lookup_insert_eq. Qed.

(** A handler either leaves the state as it is or writes the array
    through the proxy. *)
Lemma executar_casos a w :
  tarefas (executar a w) = tarefas w ∧ localStorage (executar a w) = localStorage w
    ∧ pendente (executar a w) = pendente w
  ∨ ∃ ts, executar a w = escrever ts w.
Proof.
  destruct a as [agora t | i | indice b | f]; simpl.
  - unfold adicionarTarefa. destruct (JS.truthy _); [right; by eexists | by left].
  - unfold removerTarefa. destruct (findIndex _ _); [right; by eexists | by left].
  - unfold definirConcluida. destruct (tarefas w !! indice); [|by left].
    case_decide; [by left | right; by eexists].
  - by left.
Qed.

Lemma adicionarTarefa_aceite agora t w :
  JS.trim t ≠ [] ->
  adicionarTarefa agora t w = push {| id := agora; titulo := t; concluida := false |} w.
Proof. intros H. unfold adicionarTarefa. apply truthy_true in H. by rewrite H. Qed.

Lemma adicionarTarefa_recusada agora t w :
  JS.trim t = [] -> adicionarTarefa agora t w = w.
Proof. intros H. unfold adicionarTarefa. apply truthy_false in H. by rewrite H. Qed.

End Operacoes.

(** ** The filtered view *)

Section Vista.

Lemma filtrar_todas ts : filtrar (JS.str "todas") ts = ts.
Proof. reflexivity. Qed.

Lemma filtrar_ativas ts :
  filtrar (JS.str "ativas") ts = List.filter (fun t => negb (concluida t)) ts.
Proof. reflexivity. Qed.

Lemma filtrar_concluidas ts :
  filtrar (JS.str "concluidas") ts = List.filter concluida ts.
Proof. reflexivity. Qed.

Lemma Subsequencia_filter p ts : Subsequencia p ts (List.filter p ts).
Proof.
  induction ts as [|t ts IH]; simpl; [constructor|].
  destruct (p t) eqn:Hp; by constructor.
Qed.

(** The relation of the spec has one result only. *)
Lemma Subsequencia_unica p ts r : Subsequencia p ts r -> r = List.filter p ts.
Proof.
  induction 1 as [|t ts r Hp _ IH|t ts r Hp _ IH]; simpl; [done|..];
    rewrite Hp; congruence.
Qed.

Lemma elem_of_filter_bool (p : Tarefa -> bool) ts t :
  t ∈ List.filter p ts <-> t ∈ ts ∧ p t = true.
Proof. rewrite !list_elem_of_In. apply filter_In. Qed.

End Vista.

(** C5: [tarefasFiltradas] is a function of the collection and the filter
    alone; under ['todas'] it is the whole collection in insertion order,
    under ['ativas'] the subsequence of the tasks that are not completed,
    under ['concluidas'] the subsequence of the completed ones, both in
    the order of the collection. *)
Theorem tarefasFiltradas_vista (w : Mundo) :
  tarefasFiltradas w = filtrar (filtro w) (tarefas w)
  ∧ tarefasFiltradas (definirFiltro (JS.str "todas") w) = tarefas w
  ∧ Subsequencia (fun t => negb (concluida t)) (tarefas w)
      (tarefasFiltradas (definirFiltro (JS.str "ativas") w))
  ∧ Subsequencia concluida (tarefas w)
      (tarefasFiltradas (definirFiltro (JS.str "concluidas") w)).
Proof.
  unfold tarefasFiltradas; simpl. split; [done|]. split; [apply filtrar_todas|].
  rewrite filtrar_ativas, filtrar_concluidas.
  split; apply Subsequencia_filter.
Qed.

(** C4: the view under ['ativas'] and the view under ['concluidas'], as
    sets, add up to the view under ['todas'], which is the full
    collection, and have no task in common, whatever the collection and
    the filter the state holds; a task of the first view is not completed
    and a task of the second is. *)
Theorem tarefasFiltradas_particao (w : Mundo) :
  (list_to_set (tarefasFiltradas (definirFiltro (JS.str "ativas") w)) : gset Tarefa)
    ∪ list_to_set (tarefasFiltradas (definirFiltro (JS.str "concluidas") w))
  = list_to_set (tarefasFiltradas (definirFiltro (JS.str "todas") w))
  ∧ tarefasFiltradas (definirFiltro (JS.str "todas") w) = tarefas w
  ∧ (list_to_set (tarefasFiltradas (definirFiltro (JS.str "ativas") w)) : gset Tarefa)
      ∪ list_to_set (tarefasFiltradas (definirFiltro (JS.str "concluidas") w))
    = list_to_set (tarefas w)
  ∧ (list_to_set (tarefasFiltradas (definirFiltro (JS.str "ativas") w)) : gset Tarefa)
    ## list_to_set (tarefasFiltradas (definirFiltro (JS.str "concluidas") w))
  ∧ (∀ t, t ∈ tarefasFiltradas (definirFiltro (JS.str "ativas") w) -> concluida t = false)
  ∧ (∀ t, t ∈ tarefasFiltradas (definirFiltro (JS.str "concluidas") w) -> concluida t = true).
Proof.
  unfold tarefasFiltradas; simpl.
  rewrite filtrar_todas, filtrar_ativas, filtrar_concluidas.
  assert (Hu : (list_to_set (List.filter (fun t => negb (concluida t)) (tarefas w)) : gset Tarefa)
               ∪ list_to_set (List.filter concluida (tarefas w))
               = list_to_set (tarefas w)).
  { apply set_eq. intros t.
    rewrite elem_of_union, !elem_of_list_to_set, !elem_of_filter_bool.
    destruct (concluida t); simpl; intuition congruence. }
  split; [done|]. split; [done|]. split; [done|]. split; [|split].
  - apply elem_of_disjoint. intros t.
    rewrite !elem_of_list_to_set, !elem_of_filter_bool.
    intros [_ Ha] [_ Hc]. rewrite Hc in Ha. discriminate.
  - intros t Ht. apply elem_of_filter_bool in Ht as [_ Ht]. by destruct (concluida t).
  - intros t Ht. by apply elem_of_filter_bool in Ht as [_ Ht].
Qed.

(** ** Adding a task *)

(** C1, as the code has it: [adicionarTarefa] appends a task exactly when
    the trimmed title is not empty, and the task it appends carries the
    title as it was passed; when the trimmed title is empty the state is
    left as it is: nothing is appended, the watcher is not queued and an
    idle store is not written. *)
Theorem adicionarTarefa_guarda_titulo (agora : Z) (t : jsstring) (w : Mundo) :
  (JS.trim t ≠ [] ->
     tarefas (adicionarTarefa agora t w)
     = tarefas w ++ [{| id := agora; titulo := t; concluida := false |}])
  ∧ (JS.trim t = [] -> adicionarTarefa agora t w = w)
  ∧ (JS.trim t = [] -> pendente w = false -> passo w (Adicionar agora t) = w)
  ∧ (length (tarefas (adicionarTarefa agora t w)) = S (length (tarefas w))
     <-> JS.trim t ≠ []).
Proof.
  split; [|split; [|split]].
  - intros H. by rewrite adicionarTarefa_aceite.
  - apply adicionarTarefa_recusada.
  - intros H Hq. unfold passo; simpl.
    rewrite adicionarTarefa_recusada by done. by apply esvaziarFila_quieto.
  - destruct (decide (JS.trim t = [])) as [He|Hn].
    + rewrite adicionarTarefa_recusada by done. split; [lia | done].
    + rewrite adicionarTarefa_aceite by done. simpl.
      rewrite length_app; simpl. split; [done | lia].
Qed.

Lemma adicionarTarefa_guarda_titulo_witness :
  tarefas (adicionarTarefa 1 (JS.str " a ") mundoVazio)
  = [{| id := 1; titulo := JS.str " a "; concluida := false |}]
  ∧ adicionarTarefa 2 (JS.str "  ") mundoVazio = mundoVazio.
Proof.
  split.
  - apply (proj1 (adicionarTarefa_guarda_titulo 1 (JS.str " a ") mundoVazio)).
    vm_compute. discriminate.
  - apply (proj1 (proj2 (adicionarTarefa_guarda_titulo 2 (JS.str "  ") mundoVazio))).
    vm_compute. reflexivity.
Defined.

(** C1 as stated fails: for the title [" a "] the trimmed title is ["a"],
    not empty, and the task appended carries [" a "]. *)
Lemma adicionarTarefa_titulo_por_aparar :
  JS.trim (JS.str " a ") = JS.str "a"
  ∧ tarefas (adicionarTarefa 1 (JS.str " a ") mundoVazio)
    = [{| id := 1; titulo := JS.str " a "; concluida := false |}]
  ∧ ¬ (∀ x, last (tarefas (adicionarTarefa 1 (JS.str " a ") mundoVazio)) = Some x ->
            titulo x = JS.trim (JS.str " a ")).
Proof.
  split; [reflexivity|]. split; [reflexivity|].
  intros H. specialize (H _ eq_refl). vm_compute in H. discriminate.
Qed.

(** C8: when the trimmed title is not empty, the task [adicionarTarefa]
    appends is not completed, is the last element of the collection and is
    in the views under ['todas'] and under ['ativas']; the tasks that were
    there keep their positions. *)
Theorem adicionarTarefa_ultima (agora : Z) (t : jsstring) (w : Mundo) :
  JS.trim t ≠ [] ->
  ∃ nova,
    tarefas (adicionarTarefa agora t w) = tarefas w ++ [nova]
    ∧ concluida nova = false
    ∧ last (tarefas (adicionarTarefa agora t w)) = Some nova
    ∧ nova ∈ tarefasFiltradas (definirFiltro (JS.str "todas") (adicionarTarefa agora t w))
    ∧ nova ∈ tarefasFiltradas (definirFiltro (JS.str "ativas") (adicionarTarefa agora t w))
    ∧ (∀ i x, tarefas w !! i = Some x -> tarefas (adicionarTarefa agora t w) !! i = Some x).
Proof.
  intros H. rewrite adicionarTarefa_aceite by done.
  exists {| id := agora; titulo := t; concluida := false |}.
  unfold tarefasFiltradas; simpl.
  rewrite filtrar_todas, filtrar_ativas.
  repeat split.
  - apply last_snoc.
  - apply elem_of_app. right. apply list_elem_of_here.
  - apply elem_of_filter_bool. split; [|done].
    apply elem_of_app. right. apply list_elem_of_here.
  - intros i x Hx. by apply lookup_app_l_Some.
Qed.

Lemma adicionarTarefa_ultima_witness :
  ∃ nova,
    tarefas (adicionarTarefa 7 (JS.str "Buy milk") mundoVazio) = tarefas mundoVazio ++ [nova]
    ∧ concluida nova = false
    ∧ last (tarefas (adicionarTarefa 7 (JS.str "Buy milk") mundoVazio)) = Some nova
    ∧ nova ∈ tarefasFiltradas
               (definirFiltro (JS.str "todas") (adicionarTarefa 7 (JS.str "Buy milk") mundoVazio))
    ∧ nova ∈ tarefasFiltradas
               (definirFiltro (JS.str "ativas") (adicionarTarefa 7 (JS.str "Buy milk") mundoVazio))
    ∧ (∀ i x, tarefas mundoVazio !! i = Some x ->
              tarefas (adicionarTarefa 7 (JS.str "Buy milk") mundoVazio) !! i = Some x).
Proof.
  apply (adicionarTarefa_ultima 7 (JS.str "Buy milk") mundoVazio).
  vm_compute. discriminate.
Defined.

(** ** Removing a task *)

Section Remocao.

Lemma removerTarefa_casos (i : Z) (w : Mundo) :
  (∀ t, t ∈ tarefas w -> id t ≠ i) ∧ removerTarefa i w = w
  ∨ ∃ l1 x l2, tarefas w = l1 ++ x :: l2 ∧ id x = i
               ∧ (∀ y, y ∈ l1 -> id y ≠ i)
               ∧ removerTarefa i w = escrever (l1 ++ l2) w.
Proof.
  unfold removerTarefa.
  destruct (findIndex _ (tarefas w)) as [n|] eqn:Hf.
  - right. apply findIndex_Some in Hf as (l1 & x & l2 & Hl & _ & Hx & Hn & Hd).
    exists l1, x, l2. split; [done|]. split; [by apply Z.eqb_eq|]. split.
    + intros y Hy. apply Z.eqb_neq. by apply Hn.
    + unfold splice1. by rewrite Hd.
  - left. split; [|done]. intros t Ht. apply Z.eqb_neq.
    revert t Ht. by apply findIndex_None.
Qed.

End Remocao.

(** C6: [removerTarefa] with an id no task has leaves the state as it is,
    and there is no exceptional outcome; with an id some task has, a task
    with that id is taken out of the collection. *)
Theorem removerTarefa_por_id (i : Z) (w : Mundo) :
  ((∀ t, t ∈ tarefas w -> id t ≠ i) -> removerTarefa i w = w)
  ∧ (∀ t, t ∈ tarefas w -> id t = i ->
       ∃ l1 x l2, tarefas w = l1 ++ x :: l2 ∧ id x = i
                  ∧ tarefas (removerTarefa i w) = l1 ++ l2).
Proof.
  destruct (removerTarefa_casos i w) as [[Hn Hw] | (l1 & x & l2 & Hl & Hx & _ & Hr)].
  - split; [done|]. intros t Ht Hi. by destruct (Hn t Ht).
  - split.
    + intros Hn. destruct (Hn x); [|done].
      rewrite Hl. apply elem_of_app. right. apply list_elem_of_here.
    + intros _ _ _. exists l1, x, l2. by rewrite Hr.
Qed.

Lemma removerTarefa_por_id_witness :
  removerTarefa 9 (adicionarTarefa 7 (JS.str "a") mundoVazio)
  = adicionarTarefa 7 (JS.str "a") mundoVazio
  ∧ ∃ l1 x l2,
      tarefas (adicionarTarefa 7 (JS.str "a") mundoVazio) = l1 ++ x :: l2 ∧ id x = 7%Z
      ∧ tarefas (removerTarefa 7 (adicionarTarefa 7 (JS.str "a") mundoVazio)) = l1 ++ l2.
Proof.
  split.
  - apply (proj1 (removerTarefa_por_id 9 (adicionarTarefa 7 (JS.str "a") mundoVazio))).
    intros t Ht. vm_compute in Ht. apply list_elem_of_singleton in Ht. subst t.
    vm_compute. discriminate.
  - apply (proj2 (removerTarefa_por_id 7 (adicionarTarefa 7 (JS.str "a") mundoVazio))
             {| id := 7; titulo := JS.str "a"; concluida := false |}).
    + vm_compute. apply list_elem_of_here.
    + reflexivity.
Defined.

(** C10: one call of [removerTarefa] takes out at most one task, the one
    of lowest index whose id matches; the tasks before and after it, later
    tasks with the same id among them, stay, in their order. *)
Theorem removerTarefa_primeira (i : Z) (w : Mundo) :
  tarefas (removerTarefa i w) `sublist_of` tarefas w
  ∧ (length (tarefas w) <= S (length (tarefas (removerTarefa i w))))%nat
  ∧ ((∀ t, t ∈ tarefas w -> id t ≠ i) ∧ tarefas (removerTarefa i w) = tarefas w
     ∨ ∃ l1 x l2, tarefas w = l1 ++ x :: l2 ∧ id x = i
                  ∧ (∀ y, y ∈ l1 -> id y ≠ i)
                  ∧ tarefas (removerTarefa i w) = l1 ++ l2).
Proof.
  destruct (removerTarefa_casos i w) as [[Hn Hw] | (l1 & x & l2 & Hl & Hx & Hn & Hr)].
  - rewrite Hw. split; [done|]. split; [lia|]. by left.
  - rewrite Hr, Hl; simpl. split; [|split].
    + apply sublist_app; [done|]. by apply sublist_cons.
    + rewrite !length_app; simpl. lia.
    + right. by exists l1, x, l2.
Qed.

(** ** Ids *)

Section Ids.

Lemma tarefas_passo_adicionar agora t w :
  tarefas (passo w (Adicionar agora t))
  = tarefas w ++ (if aceite (agora, t) then [tarefaNova (agora, t)] else []).
Proof.
  unfold passo; simpl. rewrite tarefas_esvaziarFila.
  unfold adicionarTarefa, aceite; simpl.
  destruct (JS.truthy _); simpl; [done | by rewrite app_nil_r].
Qed.

(** What a sequence of calls leaves in the collection: the accepted
    titles, each with the clock reading of its call. *)
Lemma tarefas_adicionarTodas chamadas w :
  tarefas (adicionarTodas chamadas w)
  = tarefas w ++ map tarefaNova (List.filter aceite chamadas).
Proof.
  unfold adicionarTodas, correr. revert w.
  induction chamadas as [|[agora t] cs IH]; intros w; simpl.
  - by rewrite app_nil_r.
  - rewrite IH, tarefas_passo_adicionar.
    destruct (aceite (agora, t)); simpl.
    + by rewrite <- app_assoc.
    + by rewrite app_nil_r.
Qed.

(** The ids a sequence of calls leaves: the ids that were there, then the
    readings of the accepted calls, in the order of the calls. *)
Lemma ids_adicionarTodas chamadas w :
  map id (tarefas (adicionarTodas chamadas w))
  = map id (tarefas w) ++ map fst (List.filter aceite chamadas).
Proof. by rewrite tarefas_adicionarTodas, map_app, map_map. Qed.

End Ids.

(** C3, as the code has it: the id of a task is the reading of
    [Date.now()] in the call that created it, and the tasks that were
    there keep their ids. So, after a sequence of calls, the ids of the
    collection are pairwise different exactly when the ids that were there
    and the readings of the accepted calls are, and they increase in
    creation order (strictly, or without decreasing) exactly when the ids
    that were there followed by those readings do. *)
Theorem ids_seguem_o_relogio (chamadas : list (Z * jsstring)) (w : Mundo) :
  map id (tarefas (adicionarTodas chamadas w))
  = map id (tarefas w) ++ map fst (List.filter aceite chamadas)
  ∧ (NoDup (map id (tarefas (adicionarTodas chamadas w)))
     <-> NoDup (map id (tarefas w) ++ map fst (List.filter aceite chamadas)))
  ∧ (StronglySorted Z.lt (map id (tarefas (adicionarTodas chamadas w)))
     <-> StronglySorted Z.lt (map id (tarefas w) ++ map fst (List.filter aceite chamadas)))
  ∧ (StronglySorted Z.le (map id (tarefas (adicionarTodas chamadas w)))
     <-> StronglySorted Z.le (map id (tarefas w) ++ map fst (List.filter aceite chamadas))).
Proof.
  split; [apply ids_adicionarTodas|].
  rewrite ids_adicionarTodas. repeat split; intros H; exact H.
Qed.

Lemma ids_seguem_o_relogio_witness :
  NoDup (map id (tarefas (adicionarTodas [(7, JS.str "a"); (7, JS.str " "); (5, JS.str "b")]%Z mundoVazio)))
  ∧ StronglySorted Z.lt
      (map id (tarefas (adicionarTodas [(5, JS.str "a"); (6, JS.str " "); (8, JS.str "b")]%Z mundoVazio))).
Proof.
  split.
  - apply (proj2 (proj1 (proj2
             (ids_seguem_o_relogio [(7, JS.str "a"); (7, JS.str " "); (5, JS.str "b")]%Z mundoVazio)))).
    simpl. apply NoDup_cons. split; [|apply NoDup_singleton].
    intros H. apply list_elem_of_singleton in H. discriminate.
  - apply (proj2 (proj1 (proj2 (proj2
             (ids_seguem_o_relogio [(5, JS.str "a"); (6, JS.str " "); (8, JS.str "b")]%Z mundoVazio))))).
    simpl. repeat (constructor; [repeat constructor; lia|]). constructor.
Defined.

(** C3 as stated fails: two calls that read the same millisecond give two
    tasks with the same id, and a clock that was set back between two
    calls gives ids that decrease in creation order. *)
Lemma ids_repetidos_no_mesmo_milissegundo :
  map id (tarefas (adicionarTodas [(5, JS.str "a"); (5, JS.str "b")]%Z mundoVazio)) = [5; 5]%Z
  ∧ ¬ NoDup (map id (tarefas (adicionarTodas [(5, JS.str "a"); (5, JS.str "b")]%Z mundoVazio)))
  ∧ map id (tarefas (adicionarTodas [(7, JS.str "a"); (5, JS.str "b")]%Z mundoVazio)) = [7; 5]%Z
  ∧ ¬ StronglySorted Z.le
        (map id (tarefas (adicionarTodas [(7, JS.str "a"); (5, JS.str "b")]%Z mundoVazio))).
Proof.
  split; [reflexivity|]. split; [|split; [reflexivity|]].
  - change (¬ NoDup [5; 5]%Z). rewrite NoDup_cons. intros [H _].
    apply H, list_elem_of_here.
  - change (¬ StronglySorted Z.le [7; 5]%Z). rewrite StronglySorted_cons.
    intros [H _]. apply Forall_cons in H as [H _]. lia.
Qed.

(** ** Persistence *)

Lemma persistencia_sincronizada_base (w : Mundo) (a : Acao) :
  (tarefas (passo w a) ≠ tarefas w -> sincronizado (passo w a))
  ∧ (pendente w = false -> sincronizado w -> sincronizado (passo w a)).
Proof.
  unfold passo. split.
  - intros Hd.
    destruct (executar_casos a w) as [(Ht & _ & _) | [ts ->]].
    + destruct Hd. by rewrite tarefas_esvaziarFila.
    + apply esvaziarFila_escrever.
  - intros Hq Hs.
    destruct (executar_casos a w) as [(Ht & Hl & Hp) | [ts ->]].
    + rewrite esvaziarFila_quieto by congruence.
      unfold sincronizado in *. by rewrite Ht, Hl.
    + apply esvaziarFila_escrever.
Qed.

(** C7: after an action that changes the collection (a task added, a task
    removed, a task's [concluida] written), [localStorage] holds under
    ['tarefas'] the serialisation of the whole current collection, and it
    keeps holding it over the actions that follow; writing the filter
    changes the filter only: it touches neither the collection nor
    [localStorage] and does not queue the watcher. *)
Theorem persistencia_sincronizada (w : Mundo) (a : Acao) :
  (tarefas (passo w a) ≠ tarefas w -> sincronizado (passo w a))
  ∧ (pendente w = false -> sincronizado w -> sincronizado (passo w a))
  ∧ pendente (passo w a) = false
  ∧ (∀ f, tarefas (definirFiltro f w) = tarefas w
          ∧ filtro (definirFiltro f w) = f
          ∧ localStorage (definirFiltro f w) = localStorage w
          ∧ pendente (definirFiltro f w) = pendente w
          ∧ (pendente w = false -> passo w (Filtrar f) = definirFiltro f w)).
Proof.
  destruct (persistencia_sincronizada_base w a) as [H1 H2].
  split; [done|]. split; [done|]. split.
  - apply pendente_esvaziarFila.
  - intros f. repeat split. intros Hq. unfold passo; simpl.
    by apply esvaziarFila_quieto.
Qed.

Lemma persistencia_sincronizada_witness :
  sincronizado (passo mundoVazio (Adicionar 7 (JS.str "a")))
  ∧ sincronizado (passo (passo mundoVazio (Adicionar 7 (JS.str "a"))) (Filtrar (JS.str "ativas"))).
Proof.
  split.
  - apply (proj1 (persistencia_sincronizada mundoVazio (Adicionar 7 (JS.str "a")))).
    vm_compute. discriminate.
  - apply (proj1 (proj2 (persistencia_sincronizada
                          (passo mundoVazio (Adicionar 7 (JS.str "a")))
                          (Filtrar (JS.str "ativas"))))).
    + reflexivity.
    + apply (proj1 (persistencia_sincronizada mundoVazio (Adicionar 7 (JS.str "a")))).
      vm_compute. discriminate.
Defined.

(** ** JSON: what [stringify] writes, [parse] reads back *)

Section Texto.
Import JS JSON.

Lemma hexValor_hexDigit d : d < 16 -> hexValor (hexDigit d) = Some d.
Proof.
  intros Hd. unfold hexValor, hexDigit.
  destruct (N.ltb_spec d 10).
  - replace ((48 <=? 48 + d) && (48 + d <=? 57)) with true
      by (symmetry; apply andb_true_iff; split; apply N.leb_le; lia).
    f_equal. lia.
  - replace ((48 <=? 87 + d) && (87 + d <=? 57)) with false
      by (symmetry; apply andb_false_iff; right; apply N.leb_gt; lia).
    replace ((97 <=? 87 + d) && (87 + d <=? 102)) with true
      by (symmetry; apply andb_true_iff; split; apply N.leb_le; lia).
    f_equal. lia.
Qed.

Lemma lerCaracteres_UnicodeEscape c rest :
  c < 65536 ->
  lerCaracteres (UnicodeEscape c ++ rest) = juntar c (lerCaracteres rest).
Proof.
  intros Hc. unfold UnicodeEscape.
  change (lerCaracteres ([92; 117; hexDigit (c / 4096 mod 16); hexDigit (c / 256 mod 16);
                          hexDigit (c / 16 mod 16); hexDigit (c mod 16)] ++ rest))
    with (match hexValor (hexDigit (c / 4096 mod 16)), hexValor (hexDigit (c / 256 mod 16)),
                hexValor (hexDigit (c / 16 mod 16)), hexValor (hexDigit (c mod 16)) with
          | Some a, Some b, Some c', Some d =>
              juntar (4096 * a + 256 * b + 16 * c' + d) (lerCaracteres rest)
          | _, _, _, _ => ErroSintaxe
          end).
  rewrite !hexValor_hexDigit by (apply N.mod_lt; lia).
  f_equal. zify. Z.to_euclidean_division_equations. lia.
Qed.

Lemma surrogate_lt c : leadingSurrogate c || trailingSurrogate c = true -> c < 65536.
Proof.
  unfold leadingSurrogate, trailingSurrogate.
  rewrite orb_true_iff, !andb_true_iff, !N.leb_le. lia.
Qed.

Lemma lerCaracteres_literal c rest :
  c ≠ 34 -> c ≠ 92 -> 32 <= c ->
  lerCaracteres (c :: rest) = juntar c (lerCaracteres rest).
Proof.
  intros H1 H2 H3. simpl.
  destruct (N.eqb_spec c 34); [done|].
  destruct (N.eqb_spec c 92); [done|].
  destruct (N.ltb_spec c 32); [lia | done].
Qed.

Lemma lerCaracteres_quoteUnit c rest :
  lerCaracteres (quoteUnit c ++ rest) = juntar c (lerCaracteres rest).
Proof.
  unfold quoteUnit.
  repeat (match goal with
          | |- context [N.eqb c ?k] => destruct (N.eqb_spec c k) as [->|?]; [reflexivity|]
          end).
  destruct (N.ltb_spec c 32) as [Hlt|Hge]; simpl orb.
  - apply lerCaracteres_UnicodeEscape. lia.
  - destruct (leadingSurrogate c || trailingSurrogate c) eqn:Hs.
    + apply lerCaracteres_UnicodeEscape. by apply surrogate_lt.
    + by apply lerCaracteres_literal.
Qed.

Lemma ligar_Lido {A B} (a : A) r (k : A -> jsstring -> Leitura B) :
  (Lido a r >>= k) = k a r.
Proof. reflexivity. Qed.

Lemma lerCaracteres_quoteBody s rest :
  lerCaracteres (quoteBody s ++ 34 :: rest) = Lido s rest.
Proof.
  remember (length s) as n eqn:Hn.
  revert s Hn. induction n as [n IH] using lt_wf_ind. intros s Hn.
  destruct s as [|c r]; [reflexivity|].
  simpl quoteBody.
  assert (Hr : lerCaracteres (quoteUnit c ++ quoteBody r ++ 34 :: rest) = Lido (c :: r) rest).
  { rewrite lerCaracteres_quoteUnit, (IH (length r)); simpl in *; [done | lia | done]. }
  destruct (leadingSurrogate c) eqn:Hc; [|by rewrite <- app_assoc].
  destruct r as [|d r']; [exact Hr|].
  destruct (trailingSurrogate d) eqn:Hd; [|by rewrite <- app_assoc].
  unfold leadingSurrogate, trailingSurrogate in Hc, Hd.
  apply andb_true_iff in Hc as [Hc1 Hc2]. apply andb_true_iff in Hd as [Hd1 Hd2].
  apply N.leb_le in Hc1, Hc2, Hd1, Hd2.
  change ((c :: d :: quoteBody r') ++ 34 :: rest)
    with (c :: d :: (quoteBody r' ++ 34 :: rest)).
  rewrite lerCaracteres_literal by lia.
  rewrite lerCaracteres_literal by lia.
  rewrite (IH (length r')); simpl in *; [done | lia | done].
Qed.

Lemma lerValor_QuoteJSONString n s rest :
  lerValor (S n) (QuoteJSONString s ++ rest) = Lido (JStr s) rest.
Proof.
  unfold QuoteJSONString.
  change ((34 :: quoteBody s ++ [34]) ++ rest) with (34 :: (quoteBody s ++ [34]) ++ rest).
  rewrite <- app_assoc.
  change (lerValor (S n) (34 :: quoteBody s ++ [34] ++ rest))
    with (lerCaracteres (quoteBody s ++ 34 :: rest) >>= fun t r1 => Lido (JStr t) r1).
  by rewrite lerCaracteres_quoteBody.
Qed.

(** Numbers *)

Lemma lerDigitos_digitos_uint u r :
  semDigito r -> lerDigitos (digitos_uint u ++ r) = (u, r).
Proof.
  intros Hr. induction u; simpl; try (rewrite IHu; reflexivity).
  destruct r as [|c r]; [done|]. simpl in *. by rewrite Hr.
Qed.

Lemma parteInteira_to_uint p : parteInteira (Pos.to_uint p) = true.
Proof.
  pose proof (DecimalPos.Unsigned.to_uint_nonnil p) as Hnil.
  pose proof (DecimalPos.Unsigned.to_uint_nonzero p) as Hzero.
  assert (Hnorm : unorm (Pos.to_uint p) = Pos.to_uint p).
  { rewrite <- (DecimalPos.Unsigned.to_of (Pos.to_uint p)).
    by rewrite DecimalPos.Unsigned.of_to. }
  destruct (Pos.to_uint p) as [|u|u|u|u|u|u|u|u|u|u]; try done.
  destruct u; try done; exfalso.
  all: rewrite unorm_D0 in Hnorm;
    match type of Hnorm with unorm ?v = _ =>
      assert (Hv : v ≠ Nil) by done;
      pose proof (nb_digits_unorm v Hv) as Hle
    end;
    rewrite Hnorm in Hle; simpl in Hle; lia.
Qed.

Lemma parteInteira_to_int z :
  parteInteira (match Z.to_int z with Pos u | Neg u => u end) = true.
Proof. destruct z; simpl; [done | apply parteInteira_to_uint ..]. Qed.

Lemma lerMagnitude_digitos_uint (negativo : bool) (u : uint) (c : N) (r : jsstring) :
  parteInteira u = true -> fimDeNumero c ->
  segurob (Z.of_int (if negativo then Neg u else Pos u)) = true ->
  lerMagnitude negativo (digitos_uint u ++ c :: r)
  = Lido (JNum (Z.of_int (if negativo then Neg u else Pos u))) (c :: r).
Proof.
  intros Hu (Hd & H1 & H2 & H3) Hs. unfold lerMagnitude.
  rewrite lerDigitos_digitos_uint by done. rewrite Hu.
  unfold lerFracao, lerExpoente; simpl.
  destruct (N.eqb_spec c 46); [done|]. simpl.
  destruct (N.eqb_spec c 101); [done|].
  destruct (N.eqb_spec c 69); [done|]. simpl.
  by rewrite Hs.
Qed.

Lemma digitos_uint_cabeca u :
  parteInteira u = true ->
  ∃ (k : N) (rest : jsstring), digitos_uint u = k :: rest ∧ 48 <= k <= 57.
Proof. destruct u; simpl; try done; intros _; eexists _, _; (split; [reflexivity | lia]). Qed.

Lemma lerNumero_sem_sinal k s :
  k ≠ 45 -> lerNumero (k :: s) = lerMagnitude false (k :: s).
Proof. intros H. unfold lerNumero. by destruct (N.eqb_spec k 45). Qed.

Lemma lerNumero_Number_toString z c r :
  seguro z -> fimDeNumero c ->
  lerNumero (Number_toString z ++ c :: r) = Lido (JNum z) (c :: r).
Proof.
  intros Hz Hc. unfold Number_toString.
  pose proof (parteInteira_to_int z) as Hu.
  pose proof (DecimalZ.of_to z) as Hof.
  assert (Hs : segurob z = true) by (by apply Z.leb_le).
  destruct (Z.to_int z) as [u|u].
  - destruct (digitos_uint_cabeca u Hu) as (k & rest & Hk & Hr).
    rewrite Hk. simpl app. rewrite lerNumero_sem_sinal by lia.
    change (k :: rest ++ c :: r) with ((k :: rest) ++ c :: r). rewrite <- Hk.
    rewrite (lerMagnitude_digitos_uint false) by (done || by rewrite Hof).
    by rewrite Hof.
  - change (lerNumero ((45 :: digitos_uint u) ++ c :: r))
      with (lerMagnitude true (digitos_uint u ++ c :: r)).
    rewrite (lerMagnitude_digitos_uint true) by (done || by rewrite Hof).
    by rewrite Hof.
Qed.

Lemma isJSONWhiteSpace_false c : 32 < c -> isJSONWhiteSpace c = false.
Proof.
  intros H. unfold isJSONWhiteSpace.
  repeat (match goal with
          | |- context [N.eqb c ?k] => destruct (N.eqb_spec c k); [lia|]
          end).
  done.
Qed.

Lemma lerValor_numeral n k s :
  k = 45 ∨ 48 <= k <= 57 ->
  lerValor (S n) (k :: s) = lerNumero (k :: s).
Proof.
  intros Hk. simpl lerValor. simpl saltarBrancos.
  rewrite isJSONWhiteSpace_false by lia.
  repeat (match goal with
          | |- context [N.eqb k ?c] =>
              lazymatch c with
              | 45 => fail
              | _ => destruct (N.eqb_spec k c); [lia|]
              end
          end).
  destruct Hk as [-> | Hk]; [done|].
  replace ((48 <=? k) && (k <=? 57)) with true
    by (symmetry; apply andb_true_iff; split; apply N.leb_le; lia).
  by rewrite orb_true_r.
Qed.

Lemma Number_toString_cabeca z :
  ∃ (k : N) (rest : jsstring), Number_toString z = k :: rest ∧ (k = 45 ∨ 48 <= k <= 57).
Proof.
  unfold Number_toString. pose proof (parteInteira_to_int z) as Hu.
  destruct (Z.to_int z) as [u|u].
  - destruct (digitos_uint_cabeca u Hu) as (k & rest & -> & Hk). eauto.
  - eexists _, _. split; [reflexivity | by left].
Qed.

Lemma lerValor_Number_toString n z c r :
  seguro z -> fimDeNumero c ->
  lerValor (S n) (Number_toString z ++ c :: r) = Lido (JNum z) (c :: r).
Proof.
  intros Hz Hc.
  destruct (Number_toString_cabeca z) as (k & rest & Hk & Hr).
  rewrite <- (lerNumero_Number_toString z c r Hz Hc), Hk.
  by apply lerValor_numeral.
Qed.

(** Objects and arrays *)

Lemma lerMembro_QuoteJSONString ler k v :
  lerMembro ler (QuoteJSONString k ++ 58 :: v)
  = (ler v >>= fun x r3 => Lido (k, x) r3).
Proof.
  unfold QuoteJSONString.
  change ((34 :: quoteBody k ++ [34]) ++ 58 :: v)
    with (34 :: (quoteBody k ++ [34]) ++ 58 :: v).
  rewrite <- app_assoc. unfold lerMembro. simpl saltarBrancos.
  change (34 =? 34) with true. cbv iota.
  rewrite lerCaracteres_quoteBody. reflexivity.
Qed.

Lemma fimDeNumero_virgula : fimDeNumero 44.
Proof. by repeat split. Qed.

Lemma stringifyTarefa_forma t r :
  stringifyTarefa t ++ r
  = 123 :: QuoteJSONString (str "id") ++ 58 :: Number_toString (id t)
    ++ 44 :: QuoteJSONString (str "titulo") ++ 58 :: QuoteJSONString (titulo t)
    ++ 44 :: QuoteJSONString (str "concluida") ++ 58 ::
       str (if concluida t then "true" else "false") ++ 125 :: r.
Proof.
  unfold stringifyTarefa. rewrite <- !app_assoc. reflexivity.
Qed.

Lemma lerValor_booleano n (b : bool) r :
  lerValor (S n) (str (if b then "true" else "false") ++ r) = Lido (JBool b) r.
Proof. by destruct b. Qed.

Lemma lerValor_stringifyTarefa n t r :
  (3 <= n)%nat -> seguro (id t) ->
  lerValor (S n) (stringifyTarefa t ++ r) = Lido (valorDeTarefa t) r.
Proof.
  intros Hn Hz.
  destruct n as [|[|[|n]]]; [lia..|].
  rewrite stringifyTarefa_forma.
  set (m := S (S n)).
  change (lerValor (S (S m)) (123 :: ?s))
    with (lerMembro (lerValor (S m)) s >>= fun x r1 =>
          lerMembros (lerValor (S m)) (S m) r1 >>= fun l r2 =>
          Lido (JObj (x :: l)) r2).
  rewrite lerMembro_QuoteJSONString.
  rewrite lerValor_Number_toString by (done || apply fimDeNumero_virgula).
  rewrite ligar_Lido; cbv beta. rewrite ligar_Lido; cbv beta. unfold m.
  change (lerMembros ?ler (S (S ?k)) (44 :: ?s))
    with (lerMembro ler s >>= fun x r1 =>
          lerMembros ler (S k) r1 >>= fun l r2 => Lido (x :: l) r2).
  rewrite lerMembro_QuoteJSONString, lerValor_QuoteJSONString.
  rewrite ligar_Lido; cbv beta. rewrite ligar_Lido; cbv beta.
  change (lerMembros ?ler (S (S ?k)) (44 :: ?s))
    with (lerMembro ler s >>= fun x r1 =>
          lerMembros ler (S k) r1 >>= fun l r2 => Lido (x :: l) r2).
  rewrite lerMembro_QuoteJSONString, lerValor_booleano.
  reflexivity.
Qed.

Lemma separados_cons t ts :
  separados (map stringifyTarefa (t :: ts)) = stringifyTarefa t ++ seguintes ts.
Proof.
  revert t. induction ts as [|u ts IH]; intros t; simpl.
  - by rewrite app_nil_r.
  - unfold seguintes; simpl. specialize (IH u). simpl in IH. by rewrite IH.
Qed.

Lemma seguintes_cons t ts :
  seguintes (t :: ts) = 44 :: stringifyTarefa t ++ seguintes ts.
Proof. reflexivity. Qed.

Lemma lerElementos_seguintes n k ts r :
  (3 <= n)%nat -> (length ts < k)%nat -> Forall (fun t => seguro (id t)) ts ->
  lerElementos (lerValor (S n)) k (seguintes ts ++ 93 :: r)
  = Lido (map valorDeTarefa ts) r.
Proof.
  intros Hn Hk Hs. revert k Hk.
  induction Hs as [|t ts Ht _ IH]; intros k Hk.
  - destruct k; [simpl in Hk; lia | reflexivity].
  - destruct k as [|k]; [simpl in Hk; lia|].
    rewrite seguintes_cons, <- app_comm_cons, <- app_assoc.
    change (lerElementos ?ler (S k) (44 :: ?s))
      with (ler s >>= fun v r1 =>
            lerElementos ler k r1 >>= fun l r2 => Lido (v :: l) r2).
    rewrite lerValor_stringifyTarefa by done.
    rewrite ligar_Lido; cbv beta.
    rewrite IH by (simpl in Hk; lia). reflexivity.
Qed.

Lemma length_stringifyTarefa t : (4 <= length (stringifyTarefa t))%nat.
Proof.
  rewrite <- (app_nil_r (stringifyTarefa t)), stringifyTarefa_forma.
  simpl. lia.
Qed.

Lemma length_seguintes ts : (length ts <= length (seguintes ts))%nat.
Proof.
  induction ts as [|t ts IH]; unfold seguintes in *; simpl; [lia|].
  rewrite length_app. lia.
Qed.

Lemma mapM_tarefaDeValor ts : mapM tarefaDeValor (map valorDeTarefa ts) = Some ts.
Proof.
  apply mapM_Some. induction ts as [|[i s b] ts IH]; constructor; done.
Qed.

Lemma parse_stringify ts :
  Forall (fun t => seguro (id t)) ts ->
  parse (stringify ts) = Some (JArr (map valorDeTarefa ts)).
Proof.
  intros Hs. destruct Hs as [|t ts Ht Hs]; [reflexivity|].
  unfold parse, stringify. rewrite separados_cons.
  set (texto := 91 :: (stringifyTarefa t ++ seguintes ts) ++ [93]).
  assert (Hl : (4 + length ts < length texto)%nat).
  { unfold texto. simpl. rewrite !length_app.
    pose proof (length_stringifyTarefa t). pose proof (length_seguintes ts).
    simpl. lia. }
  destruct (length texto) as [|[|[|[|n]]]]; [lia..|].
  unfold texto. rewrite <- app_assoc.
  change (lerValor (S (S (S (S (S n))))) (91 :: ?s))
    with (match saltarBrancos s with
          | [] => ErroSintaxe
          | d :: r0 =>
              if d =? 93 then Lido (JArr []) r0
              else
                lerValor (S (S (S (S n)))) s >>= fun v r1 =>
                lerElementos (lerValor (S (S (S (S n))))) (S (S (S (S n)))) r1 >>= fun l r2 =>
                Lido (JArr (v :: l)) r2
          end).
  rewrite (stringifyTarefa_forma t) at 1.
  simpl saltarBrancos. change (123 =? 93) with false. cbv iota.
  rewrite lerValor_stringifyTarefa by (done || lia).
  rewrite ligar_Lido; cbv beta.
  rewrite lerElementos_seguintes by (done || lia).
  reflexivity.
Qed.
End Texto.

(** ** JSON: the recursion bound of [parse] *)

Section Combustivel.
Import JS JSON.

Lemma avanca_menor {A} (x : Leitura A) s s' :
  avanca x s -> (length s <= length s')%nat -> avanca x s'.
Proof. destruct x; simpl; [lia | done..]. Qed.

Lemma termina_avanca {A} (x : Leitura A) s s' :
  termina x s -> (length s < length s')%nat -> avanca x s'.
Proof. destruct x; simpl; [lia | done..]. Qed.

Lemma saltarBrancos_length s : (length (saltarBrancos s) <= length s)%nat.
Proof.
  induction s as [|c r IH]; simpl; [lia|].
  destruct (isJSONWhiteSpace c); simpl; lia.
Qed.

(** Look at the text [s] after its white space, [c :: r], which is no
    longer than [s]. *)
Ltac apos_brancos s c r H :=
  pose proof (saltarBrancos_length s) as H;
  destruct (saltarBrancos s) as [|c r]; [done|]; simpl in H.

(** Take the result [x] of a reading apart, keeping what [H] says of it. *)
Ltac resultado x H a r :=
  destruct x as [a r| |]; simpl in H |- *; try done.

Lemma avanca_juntar c x s : avanca x s -> avanca (juntar c x) s.
Proof. by destruct x. Qed.

Lemma lerCaracteres_avanca s : avanca (lerCaracteres s) s.
Proof.
  remember (length s) as n eqn:Hn. revert s Hn.
  induction n as [n IH] using lt_wf_ind. intros s ->.
  assert (Hrec : ∀ c r, (length r < length s)%nat -> avanca (juntar c (lerCaracteres r)) s).
  { intros c r Hr. apply avanca_juntar.
    eapply avanca_menor; [by eapply IH | lia]. }
  destruct s as [|c r]; [done|]. simpl lerCaracteres.
  destruct (c =? 34); [simpl; lia|].
  destruct (c =? 92).
  - destruct r as [|e r1]; [done|].
    destruct (e =? 117).
    + destruct r1 as [|h1 [|h2 [|h3 [|h4 r2]]]]; try done.
      destruct (hexValor h1), (hexValor h2), (hexValor h3), (hexValor h4); try done.
      apply Hrec. simpl. lia.
    + destruct (escapeSimples e); [|done]. apply Hrec. simpl. lia.
  - destruct (c <? 32); [done|]. apply Hrec. simpl. lia.
Qed.

Lemma tirarPrefixo_length p s r :
  tirarPrefixo p s = Some r -> (length r <= length s)%nat.
Proof.
  revert s. induction p as [|a p IH]; intros s; simpl.
  - intros [= <-]. lia.
  - destruct s as [|b s]; [done|].
    destruct (a =? b); [|done]. intros H. apply IH in H. simpl. lia.
Qed.

Lemma lerLiteral_termina p v s : termina (lerLiteral p v s) s.
Proof.
  unfold lerLiteral. destruct (tirarPrefixo p s) eqn:H; [|done].
  by apply tirarPrefixo_length in H.
Qed.

Lemma lerDigitos_length s :
  length s = (nb_digits (lerDigitos s).1 + length (lerDigitos s).2)%nat.
Proof.
  induction s as [|c r IH]; simpl; [done|].
  destruct (digito c) as [d|] eqn:Hd; [|done].
  destruct (lerDigitos r) as [u r']; simpl in *.
  assert (nb_digits (d u) = S (nb_digits u)) as ->; [|lia].
  unfold digito in Hd.
  repeat (match type of Hd with
          | (if ?b then _ else _) = _ => destruct b; [by injection Hd as <-|]
          end).
  done.
Qed.

Lemma lerFracao_termina s : termina (lerFracao s) s.
Proof.
  unfold lerFracao. destruct s as [|c r]; [simpl; lia|].
  destruct (c =? 46); [|simpl; lia].
  pose proof (lerDigitos_length r) as H.
  destruct (lerDigitos r) as [u r']; simpl in *.
  destruct u; simpl; try done; lia.
Qed.

Lemma lerExpoente_termina s : termina (lerExpoente s) s.
Proof.
  unfold lerExpoente. destruct s as [|c r]; [simpl; lia|].
  destruct ((c =? 101) || (c =? 69)); [|simpl; lia].
  set (r1 := match r with [] => r | g :: r0 => if (g =? 43) || (g =? 45) then r0 else r end).
  assert (Hr1 : (length r1 <= length r)%nat).
  { unfold r1. destruct r as [|g r0]; [done|]. destruct (_ || _); simpl; lia. }
  pose proof (lerDigitos_length r1) as H.
  destruct (lerDigitos r1) as [u r']; simpl in *.
  destruct u; simpl; try done; lia.
Qed.

Lemma lerMagnitude_avanca negativo s : avanca (lerMagnitude negativo s) s.
Proof.
  unfold lerMagnitude.
  pose proof (lerDigitos_length s) as H.
  destruct (lerDigitos s) as [u s2]; simpl in H.
  destruct (parteInteira u) eqn:Hu; [|done].
  assert (length s2 < length s)%nat as Hlt by (destruct u; simpl in *; (done || lia)).
  pose proof (lerFracao_termina s2) as Hf.
  resultado (lerFracao s2) Hf fracao s3.
  pose proof (lerExpoente_termina s3) as He.
  resultado (lerExpoente s3) He expoente s4.
  destruct (_ || _); simpl; lia.
Qed.

Lemma lerNumero_avanca s : s ≠ [] -> avanca (lerNumero s) s.
Proof.
  unfold lerNumero. destruct s as [|c r]; [done|]. intros _.
  destruct (c =? 45); [|apply lerMagnitude_avanca].
  eapply avanca_menor; [apply lerMagnitude_avanca | simpl; lia].
Qed.

Section Compostos.
(** A reader of values that is safe on the texts shorter than [n]. *)
Variable ler : jsstring -> Leitura Valor.
Variable n : nat.
Hypothesis ler_avanca : ∀ s, (length s < n)%nat -> avanca (ler s) s.

Lemma lerMembro_avanca s : (length s <= n)%nat -> avanca (lerMembro ler s) s.
Proof.
  intros Hs. unfold lerMembro.
  apos_brancos s c r Hb.
  destruct (c =? 34); [|done].
  pose proof (lerCaracteres_avanca r) as Hk.
  resultado (lerCaracteres r) Hk k r1.
  apos_brancos r1 d r2 Hb1.
  destruct (d =? 58); [|done].
  assert (Hv : avanca (ler r2) r2) by (apply ler_avanca; lia).
  resultado (ler r2) Hv v r3. lia.
Qed.

Lemma lerMembros_termina k s :
  (length s < k)%nat -> (length s <= n)%nat -> termina (lerMembros ler k s) s.
Proof.
  revert s. induction k as [|k IH]; intros s Hk Hs; [lia|]. simpl.
  apos_brancos s c r Hb.
  destruct (c =? 125); [simpl; lia|].
  destruct (c =? 44); [|done].
  assert (Hm : avanca (lerMembro ler r) r) by (apply lerMembro_avanca; lia).
  resultado (lerMembro ler r) Hm m r1.
  assert (Hl : termina (lerMembros ler k r1) r1) by (apply IH; lia).
  resultado (lerMembros ler k r1) Hl l r2. lia.
Qed.

Lemma lerElementos_termina k s :
  (length s < k)%nat -> (length s <= n)%nat -> termina (lerElementos ler k s) s.
Proof.
  revert s. induction k as [|k IH]; intros s Hk Hs; [lia|]. simpl.
  apos_brancos s c r Hb.
  destruct (c =? 93); [simpl; lia|].
  destruct (c =? 44); [|done].
  assert (Hv : avanca (ler r) r) by (apply ler_avanca; lia).
  resultado (ler r) Hv v r1.
  assert (Hl : termina (lerElementos ler k r1) r1) by (apply IH; lia).
  resultado (lerElementos ler k r1) Hl l r2. lia.
Qed.
End Compostos.

(** With a bound above the length of the text, [lerValor] ends, and what
    it leaves is shorter than the text. *)
Lemma lerValor_avanca n s : (length s < n)%nat -> avanca (lerValor n s) s.
Proof.
  revert s. induction n as [|n IH]; intros s Hs; [lia|].
  simpl lerValor.
  apos_brancos s c r Hb.
  destruct (c =? 123).
  { apos_brancos r d r0 Hb0.
    destruct (d =? 125); [simpl; lia|].
    assert (Hm : avanca (lerMembro (lerValor n) r) r)
      by (apply (lerMembro_avanca _ n IH); lia).
    resultado (lerMembro (lerValor n) r) Hm m r1.
    assert (Hl : termina (lerMembros (lerValor n) n r1) r1)
      by (apply (lerMembros_termina _ n IH); lia).
    resultado (lerMembros (lerValor n) n r1) Hl l r2. lia. }
  destruct (c =? 91).
  { apos_brancos r d r0 Hb0.
    destruct (d =? 93); [simpl; lia|].
    assert (Hv : avanca (lerValor n r) r) by (apply IH; lia).
    resultado (lerValor n r) Hv v r1.
    assert (Hl : termina (lerElementos (lerValor n) n r1) r1)
      by (apply (lerElementos_termina _ n IH); lia).
    resultado (lerElementos (lerValor n) n r1) Hl l r2. lia. }
  destruct (c =? 34).
  { pose proof (lerCaracteres_avanca r) as Hk.
    resultado (lerCaracteres r) Hk k r1. lia. }
  assert (Hlit : ∀ p v, avanca (lerLiteral p v r) s).
  { intros p v. eapply termina_avanca; [apply lerLiteral_termina | lia]. }
  destruct (c =? 116); [apply Hlit|].
  destruct (c =? 102); [apply Hlit|].
  destruct (c =? 110); [apply Hlit|].
  destruct (_ || _); [|done].
  apply (avanca_menor (lerNumero (c :: r)) (c :: r)); [by apply lerNumero_avanca | simpl; lia].
Qed.

(** The bound [parse] gives [lerValor] is never reached. *)
Lemma lerValor_nunca_esgota s : lerValor (S (length s)) s ≠ Esgotado.
Proof.
  pose proof (lerValor_avanca (S (length s)) s) as H.
  intros He. rewrite He in H. apply H. lia.
Qed.
End Combustivel.


(** ** Loading and reloading *)

Section Carga.

Lemma desserializar_stringify ts :
  Forall (fun t => JS.seguro (id t)) ts -> desserializar (stringify ts) = Some ts.
Proof.
  intros Hs. unfold desserializar. rewrite parse_stringify by done.
  simpl. apply mapM_tarefaDeValor.
Qed.

(** [None] of [parse] is a syntax error of the text, never the bound. *)
Lemma parse_None s :
  JSON.parse s = None ->
  JSON.lerValor (S (length s)) s = JSON.ErroSintaxe
  ∨ ∃ v c r r', JSON.lerValor (S (length s)) s = JSON.Lido v r'
                ∧ JSON.saltarBrancos r' = c :: r.
Proof.
  unfold JSON.parse. pose proof (lerValor_nunca_esgota s) as He.
  destruct (JSON.lerValor (S (length s)) s) as [v r'| |]; [|by left|done].
  destruct (JSON.saltarBrancos r') as [|c r] eqn:Hr; [done|].
  intros _. right. by exists v, c, r, r'.
Qed.

Lemma textoGuardado_ausente ls :
  ls !! chave = None ∨ ls !! chave = Some [] -> textoGuardado ls = JS.str "[]".
Proof. unfold textoGuardado. by intros [-> | ->]. Qed.

Lemma textoGuardado_presente ls s :
  ls !! chave = Some s -> s ≠ [] -> textoGuardado ls = s.
Proof.
  unfold textoGuardado. intros -> Hs. apply truthy_true in Hs. by rewrite Hs.
Qed.

Lemma stringify_nao_vazio ts : stringify ts ≠ [].
Proof. done. Qed.

(** A store that holds what the watcher wrote gives the collection back. *)
Lemma useTarefas_recarrega ls ts :
  Forall (fun t => JS.seguro (id t)) ts ->
  ls !! chave = Some (stringify ts) ->
  useTarefas ls
  = Pronto {| tarefas := ts; filtro := JS.str "todas"; localStorage := ls; pendente := false |}.
Proof.
  intros Hs Hl. unfold useTarefas.
  rewrite (textoGuardado_presente ls _ Hl (stringify_nao_vazio ts)).
  rewrite parse_stringify by done. simpl.
  by rewrite mapM_tarefaDeValor.
Qed.

End Carga.

(** C9: serialising a collection, reading the text back and serialising
    what was read gives the text of the first serialisation; the ids are
    integers a Number holds exactly, as the readings of [Date.now()] are. *)
Theorem persistencia_ida_e_volta (ts : list Tarefa) :
  Forall (fun t => JS.seguro (id t)) ts ->
  desserializar (stringify ts) = Some ts
  ∧ stringify <$> desserializar (stringify ts) = Some (stringify ts).
Proof.
  intros Hs. rewrite desserializar_stringify by done. done.
Qed.

Lemma persistencia_ida_e_volta_witness :
  desserializar
    (stringify [{| id := 1700000000000; titulo := 34 :: JS.str "Buy\milk"; concluida := false |};
                {| id := -3; titulo := [0xD800; 0x0A; 0xE9]; concluida := true |}])
  = Some [{| id := 1700000000000; titulo := 34 :: JS.str "Buy\milk"; concluida := false |};
          {| id := -3; titulo := [0xD800; 0x0A; 0xE9]; concluida := true |}].
Proof.
  apply (persistencia_ida_e_volta
           [{| id := 1700000000000; titulo := 34 :: JS.str "Buy\milk"; concluida := false |};
            {| id := -3; titulo := [0xD800; 0x0A; 0xE9]; concluida := true |}]).
  repeat constructor; vm_compute; discriminate.
Defined.

(** C2, as the code has it: with no value under ['tarefas'], or the empty
    string, [useTarefas] starts with the empty collection and the filter
    ['todas'] and throws nothing; a stored text that [JSON.parse] rejects
    is not treated like an absent one: the SyntaxError of [JSON.parse]
    leaves [useTarefas]. *)
Theorem useTarefas_inicio (ls : gmap jsstring jsstring) :
  (ls !! chave = None ∨ ls !! chave = Some [] ->
     useTarefas ls
     = Pronto {| tarefas := []; filtro := JS.str "todas";
                 localStorage := ls; pendente := false |})
  ∧ (∀ s, ls !! chave = Some s -> s ≠ [] -> JSON.parse s = None ->
          useTarefas ls = Lancou SyntaxError).
Proof.
  split.
  - intros H. unfold useTarefas. by rewrite textoGuardado_ausente.
  - intros s Hl Hs Hp. unfold useTarefas.
    by rewrite (textoGuardado_presente ls s Hl Hs), Hp.
Qed.

Lemma useTarefas_inicio_witness :
  useTarefas ∅ = Pronto mundoVazio
  ∧ useTarefas (<[chave := JS.str "[1,"]> ∅) = Lancou SyntaxError.
Proof.
  split.
  - apply (proj1 (useTarefas_inicio ∅)). left. apply lookup_empty.
  - apply (proj2 (useTarefas_inicio (<[chave := JS.str "[1,"]> ∅)) (JS.str "[1,")).
    + apply lookup_insert_eq.
    + discriminate.
    + reflexivity.
Defined.

(** C2 as stated fails: the stored text ["{"] is not JSON, and
    [useTarefas] throws instead of starting with the empty collection it
    starts with when nothing is stored. *)
Lemma useTarefas_texto_malformado :
  JSON.parse (JS.str "{") = None
  ∧ useTarefas (<[chave := JS.str "{"]> ∅) = Lancou SyntaxError
  ∧ useTarefas ∅ = Pronto mundoVazio
  ∧ useTarefas (<[chave := JS.str "{"]> ∅)
    ≠ Pronto {| tarefas := []; filtro := JS.str "todas";
                localStorage := <[chave := JS.str "{"]> ∅; pendente := false |}.
Proof.
  assert (H : useTarefas (<[chave := JS.str "{"]> ∅) = Lancou SyntaxError).
  { unfold useTarefas, textoGuardado. by rewrite lookup_insert_eq. }
  split; [reflexivity|]. split; [exact H|]. split; [reflexivity|].
  rewrite H. discriminate.
Qed.


(** ** Scenarios of the application, run on the model *)

Section Cenarios.

Example cenario_buy_milk :
  tarefas (passo mundoVazio (Adicionar 1700000000000 (JS.str "Buy milk")))
  = [{| id := 1700000000000; titulo := JS.str "Buy milk"; concluida := false |}].
Proof. reflexivity. Qed.

Example cenario_so_espacos :
  passo mundoVazio (Adicionar 1700000000000 (JS.str "  ")) = mundoVazio.
Proof. reflexivity. Qed.

Example cenario_filtros :
  let w := correr mundoVazio [Adicionar 10 (JS.str "A"); Adicionar 20 (JS.str "B"); Marcar 0 true] in
  tarefasFiltradas (passo w (Filtrar (JS.str "ativas")))
  = [{| id := 20; titulo := JS.str "B"; concluida := false |}]
  ∧ tarefasFiltradas (passo w (Filtrar (JS.str "concluidas")))
    = [{| id := 10; titulo := JS.str "A"; concluida := true |}].
Proof. split; reflexivity. Qed.

Example cenario_recarregar :
  let w := passo mundoVazio (Adicionar 1700000000000 (JS.str "Buy milk")) in
  ∃ w', useTarefas (localStorage w) = Pronto w' ∧ tarefas w' = tarefas w.
Proof.
  eexists. split; [|reflexivity].
  apply useTarefas_recarrega.
  - repeat constructor. vm_compute. discriminate.
  - apply (proj1 (persistencia_sincronizada_base mundoVazio (Adicionar 1700000000000 (JS.str "Buy milk")))).
    vm_compute. discriminate.
Qed.

End Cenarios.

(** * Further properties of the composables *)

(** ** The guard of [adicionarTarefa] *)

Section Guarda.

Lemma trimStart_nil t :
  JS.trimStart t = [] <-> Forall (fun c => JS.isWhiteSpace c = true) t.
Proof.
  induction t as [|c r IH]; simpl.
  - split; [constructor | done].
  - destruct (JS.isWhiteSpace c) eqn:Hc.
    + rewrite IH. split; [by constructor | by inversion 1].
    + split; [done | inversion 1; congruence].
Qed.

Lemma trimStart_cabeca t c r :
  JS.trimStart t = c :: r -> JS.isWhiteSpace c = false.
Proof.
  induction t as [|d t IH]; simpl; [done|].
  destruct (JS.isWhiteSpace d) eqn:Hd; [done|]. by intros [= <- _].
Qed.

(** The trimmed title is empty exactly when the title is white space
    from end to end. *)
Lemma trim_nil t :
  JS.trim t = [] <-> Forall (fun c => JS.isWhiteSpace c = true) t.
Proof.
  unfold JS.trim, JS.trimEnd. split.
  - intros H. apply (f_equal (@rev N)) in H. rewrite rev_involutive in H. simpl in H.
    apply trimStart_nil in H. apply Forall_rev in H. rewrite rev_involutive in H.
    destruct (JS.trimStart t) as [|c r] eqn:Ht; [by apply trimStart_nil|].
    apply trimStart_cabeca in Ht. inversion H; congruence.
  - intros H. apply trimStart_nil in H. by rewrite H.
Qed.

Lemma trim_nao_nil t :
  JS.trim t ≠ [] <-> Exists (fun c => JS.isWhiteSpace c = false) t.
Proof.
  rewrite trim_nil. split.
  - intros H. apply not_Forall_Exists in H; [|intros c; apply _].
    eapply Exists_impl; [exact H|]. intros c Hc. simpl in Hc. by destruct (JS.isWhiteSpace c).
  - intros H Hf. apply Exists_exists in H as (c & Hc & Hw).
    rewrite Forall_forall in Hf. specialize (Hf c Hc). congruence.
Qed.

End Guarda.

(** X1: [adicionarTarefa] appends the title as passed when the title has a
    code unit that is not white space, and leaves the state as it is when
    the title is white space from end to end (the empty title too). *)
Theorem adicionarTarefa_so_espacos (agora : Z) (t : jsstring) (w : Mundo) :
  (Exists (fun c => JS.isWhiteSpace c = false) t ->
     tarefas (adicionarTarefa agora t w)
     = tarefas w ++ [{| id := agora; titulo := t; concluida := false |}])
  ∧ (Forall (fun c => JS.isWhiteSpace c = true) t -> adicionarTarefa agora t w = w).
Proof.
  split.
  - intros H. apply trim_nao_nil in H. by rewrite adicionarTarefa_aceite.
  - intros H. apply trim_nil in H. by apply adicionarTarefa_recusada.
Qed.

Lemma adicionarTarefa_so_espacos_witness :
  tarefas (adicionarTarefa 3 [0x20; 0x61; 0x3000] mundoVazio)
  = [{| id := 3; titulo := [0x20; 0x61; 0x3000]; concluida := false |}]
  ∧ adicionarTarefa 3 [0x09; 0xA0; 0x2028; 0xFEFF] mundoVazio = mundoVazio.
Proof.
  split.
  - apply (proj1 (adicionarTarefa_so_espacos 3 [0x20; 0x61; 0x3000] mundoVazio)).
    apply Exists_cons_tl, Exists_cons_hd. reflexivity.
  - apply (proj2 (adicionarTarefa_so_espacos 3 [0x09; 0xA0; 0x2028; 0xFEFF] mundoVazio)).
    repeat constructor.
Defined.

(** ** Removal, on the list *)

Section RemocaoNaLista.

Lemma findIndex_semPrimeira (i : Z) (ts : list Tarefa) :
  match findIndex (fun tarefa => (id tarefa =? i)%Z) ts with
  | Some indice => delete indice ts = semPrimeira i ts ∧ ∃ t, t ∈ ts ∧ id t = i
  | None => semPrimeira i ts = ts ∧ ∀ t, t ∈ ts -> id t ≠ i
  end.
Proof.
  induction ts as [|t r IH]; simpl.
  - split; [done|]. intros t Ht. inversion Ht.
  - destruct (Z.eqb_spec (id t) i) as [He|Hn]; simpl.
    + split; [done|]. exists t. split; [apply list_elem_of_here | done].
    + destruct (findIndex _ r) as [n|]; simpl.
      * destruct IH as [Hd (x & Hx & Hi)]. split; [by rewrite <- Hd|].
        exists x. split; [by apply list_elem_of_further | done].
      * destruct IH as [Hs Hall]. split; [by rewrite Hs|].
        intros x Hx. apply elem_of_cons in Hx as [-> | Hx]; [done | by apply Hall].
Qed.

(** [removerTarefa] on the collection is [semPrimeira]. *)
Lemma tarefas_removerTarefa (i : Z) (w : Mundo) :
  tarefas (removerTarefa i w) = semPrimeira i (tarefas w).
Proof.
  unfold removerTarefa. pose proof (findIndex_semPrimeira i (tarefas w)) as H.
  destruct (findIndex _ (tarefas w)); simpl; by destruct H as [-> _].
Qed.

Lemma removerTarefa_presente (i : Z) (w : Mundo) :
  (∃ t, t ∈ tarefas w ∧ id t = i) ->
  removerTarefa i w = escrever (semPrimeira i (tarefas w)) w.
Proof.
  intros (t & Ht & Hi). unfold removerTarefa.
  pose proof (findIndex_semPrimeira i (tarefas w)) as H.
  destruct (findIndex _ (tarefas w)).
  - unfold splice1. by destruct H as [-> _].
  - destruct H as [_ H]. by destruct (H t Ht).
Qed.

Lemma removerTarefa_ausente (i : Z) (w : Mundo) :
  (∀ t, t ∈ tarefas w -> id t ≠ i) -> removerTarefa i w = w.
Proof.
  intros Hn. unfold removerTarefa.
  pose proof (findIndex_semPrimeira i (tarefas w)) as H.
  destruct (findIndex _ (tarefas w)); [|done].
  destruct H as [_ (t & Ht & Hi)]. by destruct (Hn t Ht).
Qed.

Lemma presente_ou_ausente (i : Z) (ts : list Tarefa) :
  (∃ t, t ∈ ts ∧ id t = i) ∨ (∀ t, t ∈ ts -> id t ≠ i).
Proof.
  pose proof (findIndex_semPrimeira i ts) as H.
  destruct (findIndex _ ts); [left | right]; by destruct H.
Qed.


Lemma semPrimeira_app i l1 l2 :
  (∀ t, t ∈ l1 -> id t ≠ i) -> semPrimeira i (l1 ++ l2) = l1 ++ semPrimeira i l2.
Proof.
  induction l1 as [|t r IH]; simpl; [done|]. intros H.
  destruct (Z.eqb_spec (id t) i) as [He|_].
  - destruct (H t); [apply list_elem_of_here | done].
  - rewrite IH; [done|]. intros x Hx. apply H. by apply list_elem_of_further.
Qed.

Lemma semPrimeira_cabeca i t r : id t = i -> semPrimeira i (t :: r) = r.
Proof. intros H. simpl. by destruct (Z.eqb_spec (id t) i). Qed.

Lemma elem_of_semPrimeira i ts t : t ∈ semPrimeira i ts -> t ∈ ts.
Proof.
  induction ts as [|x r IH]; simpl; [done|].
  destruct (id x =? i)%Z.
  - by apply list_elem_of_further.
  - intros H. apply elem_of_cons in H as [-> | H];
      [apply list_elem_of_here | by apply list_elem_of_further, IH].
Qed.

Lemma elem_of_semPrimeira_outro i ts t :
  id t ≠ i -> t ∈ semPrimeira i ts <-> t ∈ ts.
Proof.
  intros Ht. split; [apply elem_of_semPrimeira|].
  induction ts as [|x r IH]; simpl; [done|]. intros H.
  apply elem_of_cons in H as [-> | H].
  - destruct (Z.eqb_spec (id x) i); [done | apply list_elem_of_here].
  - destruct (id x =? i)%Z; [done | by apply list_elem_of_further, IH].
Qed.

Lemma semPrimeira_comuta i j ts :
  semPrimeira i (semPrimeira j ts) = semPrimeira j (semPrimeira i ts).
Proof.
  induction ts as [|t r IH]; simpl; [done|].
  destruct (Z.eqb_spec (id t) j) as [Hj|Hj], (Z.eqb_spec (id t) i) as [Hi|Hi]; simpl.
  - congruence.
  - destruct (Z.eqb_spec (id t) j); [done | congruence].
  - destruct (Z.eqb_spec (id t) i); [done | congruence].
  - destruct (Z.eqb_spec (id t) j), (Z.eqb_spec (id t) i); try done. by rewrite IH.
Qed.

End RemocaoNaLista.

(** X3: removing by the id of a task just added gives the collection back
    when no earlier task has that id; when an earlier task has it (the
    same reading of the clock), the earlier task goes and the new one
    stays. *)
Theorem adicionar_e_remover (agora : Z) (t : jsstring) (w : Mundo) :
  JS.trim t ≠ [] ->
  ((∀ x, x ∈ tarefas w -> id x ≠ agora) ->
     tarefas (removerTarefa agora (adicionarTarefa agora t w)) = tarefas w)
  ∧ (∀ l1 x l2, tarefas w = l1 ++ x :: l2 -> id x = agora ->
       (∀ y, y ∈ l1 -> id y ≠ agora) ->
       tarefas (removerTarefa agora (adicionarTarefa agora t w))
       = l1 ++ l2 ++ [{| id := agora; titulo := t; concluida := false |}]).
Proof.
  intros Ht. rewrite tarefas_removerTarefa, adicionarTarefa_aceite by done. simpl.
  split.
  - intros Hn. rewrite semPrimeira_app by done. by rewrite semPrimeira_cabeca, app_nil_r.
  - intros l1 x l2 Hw Hx Hn. rewrite Hw, <- app_assoc, semPrimeira_app by done.
    rewrite <- app_comm_cons. by rewrite semPrimeira_cabeca.
Qed.

Lemma adicionar_e_remover_witness :
  tarefas (removerTarefa 9 (adicionarTarefa 9 (JS.str "b") (adicionarTarefa 7 (JS.str "a") mundoVazio)))
  = tarefas (adicionarTarefa 7 (JS.str "a") mundoVazio)
  ∧ tarefas (removerTarefa 7 (adicionarTarefa 7 (JS.str "b") (adicionarTarefa 7 (JS.str "a") mundoVazio)))
    = [] ++ [] ++ [{| id := 7; titulo := JS.str "b"; concluida := false |}].
Proof.
  split.
  - apply (proj1 (adicionar_e_remover 9 (JS.str "b") (adicionarTarefa 7 (JS.str "a") mundoVazio)
                    ltac:(vm_compute; discriminate))).
    intros x Hx. vm_compute in Hx. apply list_elem_of_singleton in Hx. subst x.
    vm_compute. discriminate.
  - apply (proj2 (adicionar_e_remover 7 (JS.str "b") (adicionarTarefa 7 (JS.str "a") mundoVazio)
                    ltac:(vm_compute; discriminate))
             [] {| id := 7; titulo := JS.str "a"; concluida := false |} []).
    + reflexivity.
    + reflexivity.
    + intros y Hy. inversion Hy.
Defined.

(** X4: on a collection whose ids are pairwise different,
    [removerTarefa] leaves no task with the id, keeps the ids pairwise
    different, and a second call with the same id changes nothing. *)
Theorem removerTarefa_ids_unicos (i : Z) (w : Mundo) :
  NoDup (map id (tarefas w)) ->
  (∀ t, t ∈ tarefas (removerTarefa i w) -> id t ≠ i)
  ∧ NoDup (map id (tarefas (removerTarefa i w)))
  ∧ removerTarefa i (removerTarefa i w) = removerTarefa i w.
Proof.
  intros Hnd.
  assert (Hsem : ∀ ts, NoDup (map id ts) ->
            (∀ t, t ∈ semPrimeira i ts -> id t ≠ i) ∧ NoDup (map id (semPrimeira i ts))).
  { clear. induction ts as [|t r IH]; simpl; intros Hnd.
    - split; [intros t Ht; inversion Ht | constructor].
    - apply NoDup_cons in Hnd as [Hin Hnd]. destruct (IH Hnd) as [IH1 IH2].
      destruct (Z.eqb_spec (id t) i) as [He|Hn].
      + split; [|done]. intros x Hx Hi. apply Hin. rewrite He, <- Hi.
        apply list_elem_of_fmap. by exists x.
      + split.
        * intros x Hx. apply elem_of_cons in Hx as [-> | Hx]; [done | by apply IH1].
        * simpl. apply NoDup_cons. split; [|done].
          intros Hx. apply Hin. apply list_elem_of_fmap in Hx as (x & Hi & Hx).
          apply list_elem_of_fmap. exists x. split; [done|]. by eapply elem_of_semPrimeira. }
  rewrite tarefas_removerTarefa. destruct (Hsem _ Hnd) as [H1 H2].
  split; [done|]. split; [done|].
  apply removerTarefa_ausente. by rewrite tarefas_removerTarefa.
Qed.

Lemma removerTarefa_ids_unicos_witness :
  (∀ t, t ∈ tarefas (removerTarefa 7 (adicionarTarefa 7 (JS.str "a") mundoVazio)) -> id t ≠ 7%Z)
  ∧ NoDup (map id (tarefas (removerTarefa 7 (adicionarTarefa 7 (JS.str "a") mundoVazio))))
  ∧ removerTarefa 7 (removerTarefa 7 (adicionarTarefa 7 (JS.str "a") mundoVazio))
    = removerTarefa 7 (adicionarTarefa 7 (JS.str "a") mundoVazio).
Proof.
  apply (removerTarefa_ids_unicos 7 (adicionarTarefa 7 (JS.str "a") mundoVazio)).
  vm_compute. repeat constructor. intros H. inversion H.
Defined.

(** X5: two calls of [removerTarefa] give the same state in either
    order. *)
Theorem removerTarefa_comuta (i j : Z) (w : Mundo) :
  removerTarefa i (removerTarefa j w) = removerTarefa j (removerTarefa i w).
Proof.
  destruct (decide (i = j)) as [->|Hij]; [done|].
  assert (Hpres : ∀ a b v, a ≠ b ->
            (∃ t, t ∈ tarefas (removerTarefa b v) ∧ id t = a) <-> (∃ t, t ∈ tarefas v ∧ id t = a)).
  { intros a b v Hab. rewrite tarefas_removerTarefa.
    split; intros (t & Ht & Hi); exists t; (split; [|done]);
      (assert (Hne : id t ≠ b) by congruence);
      by apply (elem_of_semPrimeira_outro b _ _ Hne). }
  destruct (presente_ou_ausente i (tarefas w)) as [Hi|Hi];
    destruct (presente_ou_ausente j (tarefas w)) as [Hj|Hj].
  - rewrite (removerTarefa_presente i (removerTarefa j w)) by (by apply Hpres).
    rewrite (removerTarefa_presente j (removerTarefa i w)) by (by apply Hpres).
    rewrite !tarefas_removerTarefa, semPrimeira_comuta.
    rewrite (removerTarefa_presente i w), (removerTarefa_presente j w) by done.
    reflexivity.
  - rewrite (removerTarefa_ausente j w) by done.
    rewrite (removerTarefa_ausente j (removerTarefa i w)); [done|].
    intros t Ht He. destruct (proj1 (Hpres j i w ltac:(done))) as (x & Hx & Hxj); [by exists t|].
    by destruct (Hj x Hx).
  - rewrite (removerTarefa_ausente i w) by done.
    rewrite (removerTarefa_ausente i (removerTarefa j w)); [done|].
    intros t Ht He. destruct (proj1 (Hpres i j w ltac:(done))) as (x & Hx & Hxi); [by exists t|].
    by destruct (Hi x Hx).
  - rewrite (removerTarefa_ausente j w) by done.
    rewrite (removerTarefa_ausente i w) by done.
    by rewrite (removerTarefa_ausente j w) by done.
Qed.

(** X2: a sequence of [adicionarTarefa] calls appends, in the order of
    the calls, one task for each accepted title, with the reading of its
    call as id; the rejected calls leave no trace, and a sequence of
    rejected calls only leaves an idle state as it is. *)
Theorem adicionarTodas_aceites (chamadas : list (Z * jsstring)) (w : Mundo) :
  tarefas (adicionarTodas chamadas w)
  = tarefas w ++ map tarefaNova (List.filter aceite chamadas)
  ∧ (length (tarefas (adicionarTodas chamadas w))
     = length (tarefas w) + length (List.filter aceite chamadas))%nat
  ∧ (Forall (fun c => JS.trim (snd c) = []) chamadas -> pendente w = false ->
       adicionarTodas chamadas w = w).
Proof.
  split; [apply tarefas_adicionarTodas|]. split.
  - by rewrite tarefas_adicionarTodas, length_app, length_map.
  - intros Hb Hq. unfold adicionarTodas, correr.
    induction Hb as [|[agora t] cs Ht _ IH]; simpl; [done|].
    unfold passo at 2. simpl. simpl in Ht.
    rewrite adicionarTarefa_recusada, esvaziarFila_quieto by done. exact IH.
Qed.

Lemma adicionarTodas_aceites_witness :
  adicionarTodas [(1, JS.str " "); (2, [])]%Z mundoVazio = mundoVazio.
Proof.
  apply (proj2 (proj2 (adicionarTodas_aceites [(1, JS.str " "); (2, [])]%Z mundoVazio))).
  - repeat constructor.
  - reflexivity.
Defined.

(** X6: the view under ['ativas'] followed by the view under
    ['concluidas'] is a permutation of the collection: every task is
    counted once, and the lengths of the two views add up to the length of
    the collection. *)
Theorem tarefasFiltradas_contagem (w : Mundo) :
  tarefasFiltradas (definirFiltro (JS.str "ativas") w)
    ++ tarefasFiltradas (definirFiltro (JS.str "concluidas") w)
  ≡ₚ tarefas w
  ∧ (length (tarefasFiltradas (definirFiltro (JS.str "ativas") w))
     + length (tarefasFiltradas (definirFiltro (JS.str "concluidas") w))
     = length (tarefas w))%nat.
Proof.
  unfold tarefasFiltradas; simpl. rewrite filtrar_ativas, filtrar_concluidas.
  assert (H : List.filter (fun t => negb (concluida t)) (tarefas w)
              ++ List.filter concluida (tarefas w) ≡ₚ tarefas w).
  { induction (tarefas w) as [|t r IH]; simpl; [done|].
    destruct (concluida t); simpl.
    - rewrite <- Permutation_middle. by constructor.
    - by constructor. }
  split; [done|]. rewrite <- length_app. by rewrite H.
Qed.

(** X7: whatever string the filter holds, the view is a subsequence of
    the collection; a string other than ['ativas'] and ['concluidas']
    shows the whole collection, and under ['ativas'] (under
    ['concluidas']) the view is the whole collection only when no task
    (every task) is completed. *)
Theorem tarefasFiltradas_qualquer_filtro (w : Mundo) :
  tarefasFiltradas w `sublist_of` tarefas w
  ∧ (filtro w ≠ JS.str "ativas" -> filtro w ≠ JS.str "concluidas" ->
       tarefasFiltradas w = tarefas w)
  ∧ (tarefasFiltradas w = tarefas w ->
       filtro w = JS.str "ativas" -> Forall (fun t => concluida t = false) (tarefas w))
  ∧ (tarefasFiltradas w = tarefas w ->
       filtro w = JS.str "concluidas" -> Forall (fun t => concluida t = true) (tarefas w)).
Proof.
  assert (Hsub : ∀ p (l : list Tarefa), List.filter p l `sublist_of` l).
  { intros p l. induction l as [|t r IH]; simpl; [done|].
    destruct (p t); by constructor. }
  assert (Hall : ∀ p (l : list Tarefa), List.filter p l = l -> Forall (fun t => p t = true) l).
  { intros p l H. apply Forall_forall. intros t Ht.
    rewrite <- H in Ht. apply list_elem_of_In, filter_In in Ht. tauto. }
  unfold tarefasFiltradas, filtrar. repeat split.
  - repeat case_decide; (done || apply Hsub).
  - intros H1 H2. by repeat case_decide.
  - intros H Hf. rewrite decide_True in H by done.
    apply Hall in H. eapply Forall_impl; [exact H|].
    intros t Ht. simpl in Ht. by destruct (concluida t).
  - intros H Hf. rewrite decide_False, decide_True in H by (done || by rewrite Hf).
    by apply Hall in H.
Qed.

Lemma tarefasFiltradas_qualquer_filtro_witness :
  tarefasFiltradas (definirFiltro (JS.str "Todas") (adicionarTarefa 7 (JS.str "a") mundoVazio))
  = tarefas (definirFiltro (JS.str "Todas") (adicionarTarefa 7 (JS.str "a") mundoVazio)).
Proof.
  apply (proj1 (proj2 (tarefasFiltradas_qualquer_filtro
           (definirFiltro (JS.str "Todas") (adicionarTarefa 7 (JS.str "a") mundoVazio)))));
    vm_compute; discriminate.
Defined.

(** X8: one action leaves [localStorage] as it is or sets the entry
    ['tarefas'] to the serialisation of the current collection; no other
    entry is touched, and from an idle state an action that does not
    change the collection does not write. *)
Theorem passo_so_escreve_tarefas (w : Mundo) (a : Acao) :
  (localStorage (passo w a) = localStorage w
   ∨ localStorage (passo w a)
     = <[chave := stringify (tarefas (passo w a))]> (localStorage w))
  ∧ (∀ k, k ≠ chave -> localStorage (passo w a) !! k = localStorage w !! k)
  ∧ (pendente w = false -> tarefas (passo w a) = tarefas w ->
       localStorage (passo w a) = localStorage w).
Proof.
  assert (H : localStorage (passo w a) = localStorage w
              ∨ localStorage (passo w a)
                = <[chave := stringify (tarefas (passo w a))]> (localStorage w)).
  { unfold passo.
    destruct (executar_casos a w) as [(Ht & Hl & Hp) | [ts ->]].
    - unfold esvaziarFila. rewrite Hp. destruct (pendente w); simpl.
      + right. by rewrite Hl.
      + by left.
    - right. reflexivity. }
  split; [done|]. split.
  - intros k Hk. destruct H as [-> | ->]; [done|]. by rewrite lookup_insert_ne.
  - intros Hq Ht. unfold passo in *.
    destruct (executar_casos a w) as [(_ & Hl & Hp) | [ts He]].
    + rewrite esvaziarFila_quieto by congruence. done.
    + exfalso. rewrite tarefas_esvaziarFila in Ht.
      destruct a as [agora t | i | indice b | f]; simpl in *.
      * unfold adicionarTarefa in *. destruct (JS.truthy _).
        -- simpl in Ht. apply (f_equal length) in Ht. rewrite length_app in Ht. simpl in Ht. lia.
        -- apply (f_equal pendente) in He; simpl in He; congruence.
      * pose proof (findIndex_semPrimeira i (tarefas w)) as Hf.
        unfold removerTarefa in *. destruct (findIndex _ (tarefas w)) as [n|] eqn:Hn.
        -- apply findIndex_Some in Hn as (l1 & x & l2 & Hw & _ & _ & _ & Hd).
           simpl in Ht. rewrite Hd, Hw in Ht. apply (f_equal length) in Ht.
           rewrite !length_app in Ht. simpl in Ht. lia.
        -- apply (f_equal pendente) in He; simpl in He; congruence.
      * unfold definirConcluida in *. destruct (tarefas w !! indice) as [t|] eqn:Hi.
        -- case_decide as Hc; [apply (f_equal pendente) in He; simpl in He; congruence|]. simpl in Ht.
           apply (f_equal (fun l => l !! indice)) in Ht.
           rewrite list_lookup_insert_eq in Ht by (by eapply lookup_lt_Some).
           rewrite Hi in Ht. injection Ht as Ht. apply Hc. by rewrite <- Ht.
        -- apply (f_equal pendente) in He; simpl in He; congruence.
      * apply (f_equal pendente) in He; simpl in He; congruence.
Qed.

Lemma passo_so_escreve_tarefas_witness :
  localStorage (passo (passo mundoVazio (Adicionar 7 (JS.str "a"))) (Remover 9))
  = localStorage (passo mundoVazio (Adicionar 7 (JS.str "a"))).
Proof.
  apply (proj2 (proj2 (passo_so_escreve_tarefas
                         (passo mundoVazio (Adicionar 7 (JS.str "a"))) (Remover 9))));
    reflexivity.
Defined.

(** ** Reloading after a run *)

Section Recarga.

Lemma idsSeguros_executar a w :
  acaoSegura a -> idsSeguros (tarefas w) -> idsSeguros (tarefas (executar a w)).
Proof.
  unfold idsSeguros. intros Ha Hw.
  destruct a as [agora t | i | indice b | f]; simpl in *; [| | |done].
  - unfold adicionarTarefa. destruct (JS.truthy _); [|done]. simpl.
    apply Forall_app. split; [done|]. by repeat constructor.
  - rewrite tarefas_removerTarefa. apply Forall_forall. intros t Ht.
    rewrite Forall_forall in Hw. by apply Hw, (elem_of_semPrimeira i).
  - unfold definirConcluida. destruct (tarefas w !! indice) as [t|] eqn:Hi; [|done].
    case_decide; [done|]. simpl. apply Forall_insert; [done|]. simpl.
    rewrite Forall_forall in Hw. apply Hw. by eapply list_elem_of_lookup_2.
Qed.

Lemma recarregavel_passo a w :
  acaoSegura a -> idsSeguros (tarefas w) -> pendente w = false ->
  recarregavel w -> recarregavel (passo w a).
Proof.
  intros Ha Hs Hq Hr. pose proof (idsSeguros_executar a w Ha Hs) as Hs'.
  unfold passo in *.
  destruct (executar_casos a w) as [(Ht & Hl & Hp) | [ts He]].
  - rewrite esvaziarFila_quieto by congruence.
    unfold recarregavel in *. by rewrite Ht, Hl.
  - rewrite He in *. simpl in Hs'. unfold recarregavel.
    apply useTarefas_recarrega; [done|]. apply esvaziarFila_escrever.
Qed.

Lemma useTarefas_Pronto ls w :
  useTarefas ls = Pronto w ->
  localStorage w = ls ∧ pendente w = false ∧ filtro w = JS.str "todas".
Proof.
  unfold useTarefas. destruct (JSON.parse _); [|done].
  destruct (tarefasDeValor _); [|done]. by intros [= <-].
Qed.

End Recarga.

Section Seguros.
Import JS JSON.

Lemma lidoCom_ligar {A B} (P : A -> Prop) (Q : B -> Prop) x (k : A -> jsstring -> Leitura B) :
  lidoCom P x -> (∀ a r, P a -> lidoCom Q (k a r)) -> lidoCom Q (x >>= k).
Proof. destruct x; simpl; auto. Qed.

Lemma lidoCom_True {A} (x : Leitura A) : lidoCom (fun _ => True) x.
Proof. by destruct x. Qed.

Lemma lerMagnitude_seguro negativo s : lidoCom numerosSeguros (lerMagnitude negativo s).
Proof.
  unfold lerMagnitude. destruct (lerDigitos s) as [u s2].
  destruct (parteInteira u); [|done].
  apply (lidoCom_ligar (fun _ => True)); [apply lidoCom_True|]. intros fracao s3 _.
  apply (lidoCom_ligar (fun _ => True)); [apply lidoCom_True|]. intros expoente s4 _.
  destruct fracao, expoente; simpl; try done.
  destruct (segurob _) eqn:Hs; simpl; [|done]. by apply Z.leb_le.
Qed.

Lemma lerNumero_seguro s : lidoCom numerosSeguros (lerNumero s).
Proof.
  unfold lerNumero. destruct s as [|c r]; [apply lerMagnitude_seguro|].
  destruct (c =? 45); apply lerMagnitude_seguro.
Qed.

Lemma lerLiteral_seguro p v s : numerosSeguros v -> lidoCom numerosSeguros (lerLiteral p v s).
Proof. intros Hv. unfold lerLiteral. by destruct (tirarPrefixo p s). Qed.

Section Compostos.
Variable ler : jsstring -> Leitura Valor.
Hypothesis ler_seguro : ∀ s, lidoCom numerosSeguros (ler s).

Lemma lerMembro_seguro s : lidoCom (fun m => numerosSeguros m.2) (lerMembro ler s).
Proof.
  unfold lerMembro. destruct (saltarBrancos s) as [|c r]; [done|].
  destruct (c =? 34); [|done].
  apply (lidoCom_ligar (fun _ => True)); [apply lidoCom_True|]. intros k r1 _.
  destruct (saltarBrancos r1) as [|d r2]; [done|].
  destruct (d =? 58); [|done].
  apply (lidoCom_ligar numerosSeguros); [apply ler_seguro | done].
Qed.

Lemma lerMembros_seguro k s :
  lidoCom (fun l => numerosSeguros (JObj l)) (lerMembros ler k s).
Proof.
  revert s. induction k as [|k IH]; intros s; [done|]. simpl.
  destruct (saltarBrancos s) as [|c r]; [done|].
  destruct (c =? 125); [done|].
  destruct (c =? 44); [|done].
  eapply lidoCom_ligar; [apply lerMembro_seguro|]. intros [key v] r1 Hm.
  eapply lidoCom_ligar; [apply IH|]. intros l r2 Hl. by split.
Qed.

Lemma lerElementos_seguro k s :
  lidoCom (fun l => numerosSeguros (JArr l)) (lerElementos ler k s).
Proof.
  revert s. induction k as [|k IH]; intros s; [done|]. simpl.
  destruct (saltarBrancos s) as [|c r]; [done|].
  destruct (c =? 93); [done|].
  destruct (c =? 44); [|done].
  eapply lidoCom_ligar; [apply ler_seguro|]. intros v r1 Hv.
  eapply lidoCom_ligar; [apply IH|]. intros l r2 Hl. by split.
Qed.
End Compostos.

Lemma lerValor_seguro n s : lidoCom numerosSeguros (lerValor n s).
Proof.
  revert s. induction n as [|n IH]; intros s; [done|]. simpl lerValor.
  destruct (saltarBrancos s) as [|c r]; [done|].
  destruct (c =? 123).
  { destruct (saltarBrancos r) as [|d r0]; [done|].
    destruct (d =? 125); [done|].
    eapply lidoCom_ligar; [by apply lerMembro_seguro|]. intros [key v] r1 Hm.
    eapply lidoCom_ligar; [by apply lerMembros_seguro|]. intros l r2 Hl. by split. }
  destruct (c =? 91).
  { destruct (saltarBrancos r) as [|d r0]; [done|].
    destruct (d =? 93); [done|].
    eapply lidoCom_ligar; [apply IH|]. intros v r1 Hv.
    eapply lidoCom_ligar; [by apply lerElementos_seguro|]. intros l r2 Hl. by split. }
  destruct (c =? 34).
  { apply (lidoCom_ligar (fun _ => True)); [apply lidoCom_True | done]. }
  destruct (c =? 116); [by apply lerLiteral_seguro|].
  destruct (c =? 102); [by apply lerLiteral_seguro|].
  destruct (c =? 110); [by apply lerLiteral_seguro|].
  destruct (_ || _); [|done].
  apply (lerNumero_seguro (c :: r)).
Qed.

Lemma parse_seguro s v : parse s = Some v -> numerosSeguros v.
Proof.
  unfold parse. pose proof (lerValor_seguro (S (length s)) s) as H.
  destruct (lerValor _ s) as [x r| |]; [|done..].
  destruct (saltarBrancos r); [|done]. by intros [= <-].
Qed.

Lemma tarefasDeValor_seguras v ts :
  numerosSeguros v -> tarefasDeValor v = Some ts -> idsSeguros ts.
Proof.
  destruct v as [| | | | |l|]; simpl; try done.
  intros Hl Hm. apply mapM_Some in Hm. unfold idsSeguros.
  induction Hm as [|x t l ts Hx _ IH]; [constructor|].
  destruct Hl as [Hx' Hl]. constructor; [|by apply IH].
  unfold tarefaDeValor in Hx.
  destruct x as [| | | | | |m]; try done.
  destruct m as [|[k1 [| |i| | | |]] [|[k2 [| | | |s0| |]] [|[k3 [|b| | | | |]] [|]]]]; try done.
  case_decide; [|done]. injection Hx as <-. simpl. by destruct Hx'.
Qed.

(** The ids [useTarefas] loads are integers a Number holds exactly. *)
Lemma useTarefas_ids_seguros ls w : useTarefas ls = Pronto w -> idsSeguros (tarefas w).
Proof.
  unfold useTarefas. destruct (JSON.parse _) as [v|] eqn:Hp; [|done].
  destruct (tarefasDeValor v) as [ts|] eqn:Ht; [|done].
  intros [= <-]. simpl. eapply tarefasDeValor_seguras; [by eapply parse_seguro | done].
Qed.
End Seguros.

(** X9: from a state [useTarefas] has built, after any sequence of
    actions, a new [useTarefas] on the resulting [localStorage] starts with
    the current collection; the filter is not stored and starts as
    ['todas']. *)
Theorem recarregar_apos_acoes (ls : gmap jsstring jsstring) (w : Mundo) (l : list Acao) :
  useTarefas ls = Pronto w -> Forall acaoSegura l ->
  useTarefas (localStorage (correr w l))
  = Pronto {| tarefas := tarefas (correr w l); filtro := JS.str "todas";
              localStorage := localStorage (correr w l); pendente := false |}.
Proof.
  intros Hu Hl.
  assert (Hinv : idsSeguros (tarefas w) ∧ pendente w = false ∧ recarregavel w).
  { pose proof (useTarefas_ids_seguros ls w Hu) as Hs.
    destruct (useTarefas_Pronto ls w Hu) as (Hls & Hq & Hf).
    split; [done|]. split; [done|]. unfold recarregavel. rewrite Hls, Hu.
    destruct w; simpl in *. by subst. }
  clear Hu. unfold correr. revert w Hinv.
  induction Hl as [|a l Ha _ IH]; intros w (Hs & Hq & Hr); simpl; [done|].
  apply IH. split; [|split].
  - unfold passo. rewrite tarefas_esvaziarFila. by apply idsSeguros_executar.
  - apply pendente_esvaziarFila.
  - by apply recarregavel_passo.
Qed.

Lemma recarregar_apos_acoes_witness :
  useTarefas (localStorage (correr mundoVazio [Adicionar 5 (JS.str "a"); Filtrar (JS.str "ativas"); Marcar 0 true]))
  = Pronto {| tarefas := tarefas (correr mundoVazio [Adicionar 5 (JS.str "a"); Filtrar (JS.str "ativas"); Marcar 0 true]);
              filtro := JS.str "todas";
              localStorage := localStorage (correr mundoVazio [Adicionar 5 (JS.str "a"); Filtrar (JS.str "ativas"); Marcar 0 true]);
              pendente := false |}.
Proof.
  apply (recarregar_apos_acoes ∅ mundoVazio
           [Adicionar 5 (JS.str "a"); Filtrar (JS.str "ativas"); Marcar 0 true]).
  - reflexivity.
  - repeat constructor. vm_compute. discriminate.
Defined.

(** X10: two collections with the same serialisation are the same
    collection. *)
Theorem stringify_injetiva (ts1 ts2 : list Tarefa) :
  idsSeguros ts1 -> idsSeguros ts2 -> stringify ts1 = stringify ts2 -> ts1 = ts2.
Proof.
  intros H1 H2 He.
  apply desserializar_stringify in H1, H2. rewrite He in H1. congruence.
Qed.

Lemma stringify_injetiva_witness :
  [{| id := 1; titulo := JS.str "a,b"; concluida := false |}]
  = [{| id := 1; titulo := JS.str "a,b"; concluida := false |}].
Proof.
  apply (stringify_injetiva [{| id := 1; titulo := JS.str "a,b"; concluida := false |}]
           [{| id := 1; titulo := JS.str "a,b"; concluida := false |}]).
  - repeat constructor. vm_compute. discriminate.
  - repeat constructor. vm_compute. discriminate.
  - reflexivity.
Defined.

(** ** The theme *)

Section Tema.


Lemma tema_alternarTema w :
  tema (alternarTema w) = if decide (tema w = claro) then escuro else claro.
Proof. reflexivity. Qed.

Lemma alternarTema_muda w : tema (alternarTema w) ≠ tema w.
Proof.
  rewrite tema_alternarTema. case_decide as H; [rewrite H; done | congruence].
Qed.

(** From an idle state, a click runs the callback of the watcher. *)
Lemma passoTema_quieto w :
  temaVisto w = tema w -> passoTema w = aoMudarTema (alternarTema w).
Proof.
  intros Hq. unfold passoTema, esvaziarFilaTema.
  rewrite decide_False; [done|]. simpl temaVisto. rewrite Hq. apply alternarTema_muda.
Qed.

Lemma temaSincronizado_aoMudarTema w : temaSincronizado (aoMudarTema w).
Proof.
  unfold temaSincronizado; simpl. split; [done|]. split; [apply lookup_insert_eq|].
  case_decide as H.
  - split; [done | intros _]. apply elem_of_union_l. by apply elem_of_singleton.
  - split; [|done]. rewrite elem_of_difference, elem_of_singleton. by intros [_ []].
Qed.

End Tema.

(** X11: [alternarTema] always changes the theme, to ['claro'] or
    ['escuro']: ['claro'] becomes ['escuro'], any other value becomes
    ['claro']; two calls give the theme back exactly when it was one of
    the two. *)
Theorem alternarTema_normaliza (w : MundoTema) :
  (tema (alternarTema w) = claro ∨ tema (alternarTema w) = escuro)
  ∧ tema (alternarTema w) ≠ tema w
  ∧ (tema (alternarTema w) = escuro <-> tema w = claro)
  ∧ (tema (alternarTema (alternarTema w)) = tema w <-> tema w = claro ∨ tema w = escuro).
Proof.
  split; [|split; [apply alternarTema_muda|split]].
  - rewrite tema_alternarTema. case_decide; [by right | by left].
  - rewrite tema_alternarTema. case_decide; [done|]. split; [done | congruence].
  - rewrite !tema_alternarTema.
    destruct (decide (tema w = claro)) as [Hc|Hc].
    + rewrite decide_False by done. split; [by left | congruence].
    + rewrite decide_True by done. split; [by right|].
      intros [H|H]; [done | by rewrite H].
Qed.

Lemma alternarTema_normaliza_witness :
  tema (alternarTema (alternarTema (useTema (<[chaveTema := escuro]> ∅) ∅)))
  = tema (useTema (<[chaveTema := escuro]> ∅) ∅).
Proof.
  apply (proj2 (proj2 (proj2 (alternarTema_normaliza (useTema (<[chaveTema := escuro]> ∅) ∅))))).
  right. reflexivity.
Defined.

(** X12: after a click on the theme button in an idle state, the entry
    ['tema'] of [localStorage] holds the theme, the page has the class
    ['dark'] exactly when the theme is ['escuro'], no other entry and no
    other class is touched, and the state is idle again. *)
Theorem passoTema_sincroniza (w : MundoTema) :
  temaVisto w = tema w ->
  temaSincronizado (passoTema w)
  ∧ tema (passoTema w) = tema (alternarTema w)
  ∧ (∀ k, k ≠ chaveTema -> armazenamento (passoTema w) !! k = armazenamento w !! k)
  ∧ (∀ c, c ≠ dark -> c ∈ classList (passoTema w) <-> c ∈ classList w).
Proof.
  intros Hq. rewrite passoTema_quieto by done.
  split; [apply temaSincronizado_aoMudarTema|]. split; [done|]. split.
  - intros k Hk. simpl. by rewrite lookup_insert_ne.
  - intros c Hc. simpl. case_decide.
    + rewrite elem_of_union, elem_of_singleton. tauto.
    + rewrite elem_of_difference, elem_of_singleton. tauto.
Qed.

Lemma passoTema_sincroniza_witness :
  temaSincronizado (passoTema (useTema ∅ {[dark]})).
Proof.
  apply (proj1 (passoTema_sincroniza (useTema ∅ {[dark]}) eq_refl)).
Defined.

(** X13: the theme a click leaves is the theme a new [useTema] starts
    with, on the same store; on a page without the class ['dark'] the
    page and the theme agree from the start. *)
Theorem useTema_recarrega (w : MundoTema) (cl : gset jsstring) :
  temaVisto w = tema w ->
  tema (useTema (armazenamento (passoTema w)) cl) = tema (passoTema w)
  ∧ armazenamento (useTema (armazenamento (passoTema w)) cl) = armazenamento (passoTema w)
  ∧ (dark ∉ cl -> temaSincronizado (useTema (armazenamento (passoTema w)) cl)).
Proof.
  intros Hq.
  assert (Hs : armazenamento (passoTema w) !! chaveTema = Some (tema (passoTema w))).
  { rewrite passoTema_quieto by done.
    by destruct (temaSincronizado_aoMudarTema (alternarTema w)) as (_ & Hs & _). }
  assert (Hg : temaGuardado (armazenamento (passoTema w)) = tema (passoTema w)).
  { unfold temaGuardado. rewrite Hs, passoTema_quieto by done.
    change (tema (aoMudarTema (alternarTema w))) with (tema (alternarTema w)).
    rewrite tema_alternarTema. by case_decide. }
  unfold useTema. rewrite !Hg. split; [done|]. split; [done|].
  intros Hcl. unfold temaSincronizado. cbn [tema temaVisto armazenamento classList].
  split; [done|]. split; [done|]. case_decide as H.
  - split; [done | intros _]. apply elem_of_union_l. by apply elem_of_singleton.
  - done.
Qed.

Lemma useTema_recarrega_witness :
  tema (useTema (armazenamento (passoTema (useTema ∅ ∅))) ∅) = tema (passoTema (useTema ∅ ∅)).
Proof.
  apply (proj1 (useTema_recarrega (useTema ∅ ∅) ∅ eq_refl)).
Defined.

(** X14: [useTema] starts with ['claro'] when the store has no entry
    ['tema'] or the empty string, and with the stored string otherwise,
    whatever it is; it writes nothing to the store; it adds the class
    ['dark'] for ['escuro'] and never removes it, so a page that has the
    class keeps it under another theme; the first click runs the
    watcher. *)
Theorem useTema_inicio (ls : gmap jsstring jsstring) (cl : gset jsstring) :
  (ls !! chaveTema = None ∨ ls !! chaveTema = Some [] -> tema (useTema ls cl) = claro)
  ∧ (∀ s, ls !! chaveTema = Some s -> s ≠ [] -> tema (useTema ls cl) = s)
  ∧ armazenamento (useTema ls cl) = ls
  ∧ (dark ∈ classList (useTema ls cl) <-> tema (useTema ls cl) = escuro ∨ dark ∈ cl)
  ∧ (∀ c, c ≠ dark -> c ∈ classList (useTema ls cl) <-> c ∈ cl)
  ∧ passoTema (useTema ls cl) = aoMudarTema (alternarTema (useTema ls cl)).
Proof.
  split; [|split; [|split; [done|split; [|split]]]].
  - unfold useTema, temaGuardado; simpl. by intros [-> | ->].
  - unfold useTema, temaGuardado; simpl. intros s -> Hs.
    apply truthy_true in Hs. by rewrite Hs.
  - unfold useTema. cbn [tema classList]. case_decide as H.
    + split; [by left | intros _]. apply elem_of_union_l. by apply elem_of_singleton.
    + split; [by right | by intros [?|?]].
  - intros c Hc. unfold useTema. cbn [classList]. case_decide; [|done].
    rewrite elem_of_union, elem_of_singleton. tauto.
  - by apply passoTema_quieto.
Qed.

Lemma useTema_inicio_witness :
  tema (useTema ∅ {[dark]}) = claro
  ∧ tema (useTema (<[chaveTema := JS.str "azul"]> ∅) ∅) = JS.str "azul".
Proof.
  split.
  - apply (proj1 (useTema_inicio ∅ {[dark]})). left. apply lookup_empty.
  - apply (proj1 (proj2 (useTema_inicio (<[chaveTema := JS.str "azul"]> ∅) ∅)) (JS.str "azul")).
    + apply lookup_insert_eq.
    + discriminate.
Defined.

(** ** The counter *)

Section Contador.

Lemma correrContador_app w l1 l2 :
  correrContador w (l1 ++ l2) = correrContador (correrContador w l1) l2.
Proof. apply fold_left_app. Qed.

Lemma intervalo_correrContador w l : intervalo (correrContador w l) = intervalo w.
Proof.
  revert w. induction l as [|e l IH]; intros w; [done|]. simpl.
  change (fold_left passoContador l (passoContador w e))
    with (correrContador (passoContador w e) l).
  rewrite IH. destruct e as [i|]; simpl; [|done]. by case_decide.
Qed.

(** Once the interval is cleared, no event changes the state. *)
Lemma correrContador_parado w l :
  intervalo w ∉ temporizadores w ->
  contador (correrContador w l) = contador w
  ∧ intervalo w ∉ temporizadores (correrContador w l).
Proof.
  revert w. induction l as [|e l IH]; intros w Hw; [done|]. simpl.
  change (fold_left passoContador l (passoContador w e))
    with (correrContador (passoContador w e) l).
  destruct e as [i|]; simpl.
  - rewrite decide_False; [by apply IH|]. intros [Hi ->]. done.
  - destruct (IH {| contador := contador w; intervalo := intervalo w;
                    temporizadores := temporizadores w ∖ {[intervalo w]} |}) as [H1 H2].
    + simpl. rewrite elem_of_difference, elem_of_singleton. tauto.
    + done.
Qed.

Lemma incremento_iter (n : nat) :
  (Z.of_nat n <= 2 ^ 53)%Z -> Nat.iter n incremento 0%Z = Z.of_nat n.
Proof.
  induction n as [|n IH]; [done|]. intros Hn. simpl Nat.iter.
  rewrite IH by lia. unfold incremento.
  destruct (Z.ltb_spec (Z.of_nat n) (2 ^ 53)); lia.
Qed.

Lemma tiques_proprio i l : tiques i (Tique i :: l) = S (tiques i l).
Proof. unfold tiques. simpl. by rewrite bool_decide_eq_true_2. Qed.

Lemma tiques_alheio i j l : j ≠ i -> tiques i (Tique j :: l) = tiques i l.
Proof. intros H. unfold tiques. simpl. by rewrite bool_decide_eq_false_2. Qed.

(** While the interval is registered, each of its ticks increments. *)
Lemma correrContador_montado w l :
  intervalo w ∈ temporizadores w -> semDesmontar l ->
  contador (correrContador w l) = Nat.iter (tiques (intervalo w) l) incremento (contador w)
  ∧ intervalo w ∈ temporizadores (correrContador w l).
Proof.
  revert w. induction l as [|e l IH]; intros w Hw Hl; [done|]. simpl.
  change (fold_left passoContador l (passoContador w e))
    with (correrContador (passoContador w e) l).
  assert (Hl' : semDesmontar l).
  { intros x Hx. apply Hl. by apply list_elem_of_further. }
  destruct e as [i|]; [|by destruct (Hl Desmontar (list_elem_of_here _ _))].
  simpl. destruct (decide (i = intervalo w)) as [->|Hi].
  - rewrite decide_True by done. rewrite tiques_proprio, Nat.iter_succ_r.
    by apply (IH {| contador := incremento (contador w); intervalo := intervalo w;
                    temporizadores := temporizadores w |}).
  - rewrite decide_False by (by intros [_ ?]). rewrite tiques_alheio by done.
    by apply IH.
Qed.

(** After the hook of [onUnmounted], nothing counts any more. *)
Lemma correrContador_desmontar w l :
  contador (correrContador w (Desmontar :: l)) = contador w
  ∧ intervalo w ∉ temporizadores (correrContador w (Desmontar :: l)).
Proof.
  change (correrContador w (Desmontar :: l))
    with (correrContador (passoContador w Desmontar) l).
  apply (correrContador_parado (passoContador w Desmontar) l).
  simpl. rewrite elem_of_difference, elem_of_singleton. tauto.
Qed.

(** No event touches the timers of others. *)
Lemma temporizadores_correrContador w l j :
  j ≠ intervalo w -> (j ∈ temporizadores (correrContador w l) <-> j ∈ temporizadores w).
Proof.
  revert w. induction l as [|e l IH]; intros w Hj; [done|]. simpl.
  change (fold_left passoContador l (passoContador w e))
    with (correrContador (passoContador w e) l).
  destruct e as [i|]; simpl.
  - case_decide; by rewrite IH.
  - rewrite IH by done. simpl. rewrite elem_of_difference, elem_of_singleton. tauto.
Qed.

End Contador.

(** X15: while mounted, the counter is the number of ticks of its own
    interval (up to 2^53); after the hook of [onUnmounted] the interval is
    no longer registered, later ticks change nothing, and the timers of
    others are as they were. *)
Theorem useContador_conta_tiques (i : nat) (ativos : gset nat)
    (antes depois : list EventoContador) :
  semDesmontar antes ->
  (Z.of_nat (tiques i antes) <= 2 ^ 53)%Z ->
  contador (correrContador (useContador i ativos) antes) = Z.of_nat (tiques i antes)
  ∧ contador (correrContador (useContador i ativos) (antes ++ Desmontar :: depois))
    = Z.of_nat (tiques i antes)
  ∧ (i ∉ temporizadores (correrContador (useContador i ativos) (antes ++ Desmontar :: depois)))
  ∧ (∀ j, j ≠ i ->
       (j ∈ temporizadores (correrContador (useContador i ativos) (antes ++ Desmontar :: depois))
        <-> j ∈ ativos)).
Proof.
  intros Ha Hn.
  assert (Hi : intervalo (useContador i ativos) ∈ temporizadores (useContador i ativos)).
  { simpl. apply elem_of_union_l. by apply elem_of_singleton. }
  destruct (correrContador_montado _ antes Hi Ha) as [Hc Hm]. simpl in Hc.
  rewrite incremento_iter in Hc by done.
  split; [done|].
  pose proof (intervalo_correrContador (useContador i ativos) antes) as Hid. simpl in Hid.
  destruct (correrContador_desmontar (correrContador (useContador i ativos) antes) depois)
    as [H1 H2].
  rewrite Hid in H2.
  rewrite correrContador_app. split; [by rewrite H1|]. split; [done|].
  intros j Hj. rewrite <- correrContador_app.
  rewrite temporizadores_correrContador by done. simpl.
  rewrite elem_of_union, elem_of_singleton. tauto.
Qed.

Lemma useContador_conta_tiques_witness :
  contador (correrContador (useContador 1 ∅) ([Tique 1; Tique 2; Tique 1] ++ Desmontar :: [Tique 1]))
  = Z.of_nat (tiques 1 [Tique 1; Tique 2; Tique 1]).
Proof.
  apply (proj1 (proj2 (useContador_conta_tiques 1 ∅ [Tique 1; Tique 2; Tique 1] [Tique 1]
                         ltac:(intros e He; repeat (apply elem_of_cons in He as [-> | He]; [discriminate|]); inversion He)
                         ltac:(vm_compute; discriminate)))).
Defined.

(** ** The application *)

Section App.

Lemma chaves_distintas : chave ≠ chaveTema.
Proof. done. Qed.

Lemma verTarefas_comTarefas w x : verTarefas (comTarefas w x) = w.
Proof. by destruct w. Qed.

Lemma verTema_comTema t x : verTema (comTema t x) = t.
Proof. by destruct t. Qed.

(** [useTarefas] reads the entry ['tarefas'] only. *)
Lemma useTarefas_so_le_chave ls ls' :
  ls !! chave = ls' !! chave ->
  match useTarefas ls with
  | Pronto w =>
      useTarefas ls' = Pronto {| tarefas := tarefas w; filtro := filtro w;
                                 localStorage := ls'; pendente := pendente w |}
  | Lancou e => useTarefas ls' = Lancou e
  | ForaDoModelo => useTarefas ls' = ForaDoModelo
  end.
Proof.
  intros H. unfold useTarefas, textoGuardado. rewrite <- H.
  destruct (JSON.parse _); [|done]. by destruct (tarefasDeValor _).
Qed.

(** A click on the theme button writes the entry ['tema'] at most. *)
Lemma armazenamento_passoTema t k :
  k ≠ chaveTema -> armazenamento (passoTema t) !! k = armazenamento t !! k.
Proof.
  intros Hk. unfold passoTema, esvaziarFilaTema. case_decide; [done|].
  simpl. by rewrite lookup_insert_ne.
Qed.

Lemma localStorage_passo w a k :
  k ≠ chave -> localStorage (passo w a) !! k = localStorage w !! k.
Proof.
  intros Hk. unfold passo.
  destruct (executar_casos a w) as [(Ht & Hl & Hp) | [ts ->]].
  - unfold esvaziarFila. destruct (pendente (executar a w)); [|by rewrite Hl].
    simpl. by rewrite lookup_insert_ne, Hl.
  - simpl. by rewrite lookup_insert_ne.
Qed.

End App.

(** X16: in the application, an action on the tasks leaves the theme,
    the class list and the entry ['tema'] as they are, and a click on the
    theme button leaves the collection, the filter and the entry
    ['tarefas'] as they are. *)
Theorem passoApp_moldura (x : Aplicacao) :
  (∀ a, temaApp (passoApp x (NasTarefas a)) = temaApp x
        ∧ temaVistoApp (passoApp x (NasTarefas a)) = temaVistoApp x
        ∧ classListApp (passoApp x (NasTarefas a)) = classListApp x
        ∧ localStorageApp (passoApp x (NasTarefas a)) !! chaveTema
          = localStorageApp x !! chaveTema)
  ∧ tarefasApp (passoApp x CliqueTema) = tarefasApp x
  ∧ filtroApp (passoApp x CliqueTema) = filtroApp x
  ∧ pendenteApp (passoApp x CliqueTema) = pendenteApp x
  ∧ localStorageApp (passoApp x CliqueTema) !! chave = localStorageApp x !! chave.
Proof.
  split; [|repeat split].
  - intros a. repeat split. simpl.
    by rewrite localStorage_passo.
  - simpl. by rewrite armazenamento_passoTema.
Qed.

Section AppPassos.

Lemma temaGuardado_so_le_chave ls ls' :
  ls !! chaveTema = ls' !! chaveTema -> temaGuardado ls = temaGuardado ls'.
Proof. unfold temaGuardado. by intros ->. Qed.

Lemma recarregavel_so_le_chave w ls' :
  ls' !! chave = localStorage w !! chave ->
  recarregavel w ->
  recarregavel {| tarefas := tarefas w; filtro := filtro w;
                  localStorage := ls'; pendente := pendente w |}.
Proof.
  intros Hk Hr. unfold recarregavel in *. simpl.
  pose proof (useTarefas_so_le_chave (localStorage w) ls' (eq_sym Hk)) as H.
  by rewrite Hr in H.
Qed.

Lemma appSincronizada_passoApp x e : appSincronizada x -> appSincronizada (passoApp x e).
Proof.
  intros (Hq & Hs & Hv & Ht & Hd). destruct e as [a|]; unfold appSincronizada.
  - simpl passoApp. rewrite verTarefas_comTarefas.
    split; [apply pendente_esvaziarFila|]. split.
    + by apply (persistencia_sincronizada_base (verTarefas x) a).
    + unfold temaSincronizado. simpl. split; [done|]. split; [|done].
      rewrite localStorage_passo; [done | apply not_eq_sym, chaves_distintas].
  - simpl passoApp. rewrite verTema_comTema.
    split; [done|]. split.
    + unfold sincronizado. simpl.
      rewrite armazenamento_passoTema; [done | apply chaves_distintas].
    + rewrite passoTema_quieto by done. apply temaSincronizado_aoMudarTema.
Qed.

Lemma appRecarregavel_passoApp x e :
  eventoSeguro e -> appRecarregavel x -> appRecarregavel (passoApp x e).
Proof.
  intros He (Hq & Hv & Hs & Hr & Hg). destruct e as [a|]; unfold appRecarregavel.
  - simpl in He. simpl passoApp. rewrite verTarefas_comTarefas.
    split; [apply pendente_esvaziarFila|]. split; [done|]. split; [|split].
    + simpl. unfold passo. rewrite tarefas_esvaziarFila. by apply idsSeguros_executar.
    + by apply recarregavel_passo.
    + simpl. rewrite <- Hg. apply temaGuardado_so_le_chave.
      apply localStorage_passo, not_eq_sym, chaves_distintas.
  - simpl passoApp.
    assert (Hp : passoTema (verTema x) = aoMudarTema (alternarTema (verTema x)))
      by (by apply passoTema_quieto).
    split; [done|]. split; [by rewrite Hp|]. split; [done|]. split.
    + apply (recarregavel_so_le_chave (verTarefas x)); [|done].
      apply armazenamento_passoTema, chaves_distintas.
    + rewrite Hp. simpl. unfold temaGuardado. rewrite lookup_insert_eq.
      by case_decide.
Qed.

Lemma iniciarApp_Pronto ls cl x : iniciarApp ls cl = Pronto x -> appRecarregavel x.
Proof.
  unfold iniciarApp. destruct (useTarefas ls) as [w| |] eqn:Hu; [|done..].
  intros [= <-]. destruct (useTarefas_Pronto ls w Hu) as (Hls & Hq & Hf).
  unfold appRecarregavel. simpl. split; [done|]. split; [done|]. split.
  - by eapply useTarefas_ids_seguros.
  - split; [|by rewrite Hls]. unfold recarregavel, verTarefas. simpl.
    rewrite Hls, Hu. destruct w; simpl in *. by subst.
Qed.

End AppPassos.

(** X17: once the store and the page agree with the collection and the
    theme, they agree after every sequence of actions on the tasks and
    clicks on the theme button, in any order. *)
Theorem correrApp_sincronizada (x : Aplicacao) (l : list Evento) :
  appSincronizada x -> appSincronizada (correrApp x l).
Proof.
  unfold correrApp. revert x. induction l as [|e l IH]; intros x Hx; [done|].
  simpl. by apply IH, appSincronizada_passoApp.
Qed.

(** X18: after any sequence of events of the application, a new setup on
    the resulting [localStorage] starts with the current collection and
    the current theme; the filter starts as ['todas']. *)
Theorem iniciarApp_recarrega (ls : gmap jsstring jsstring) (cl cl' : gset jsstring)
    (x : Aplicacao) (l : list Evento) :
  iniciarApp ls cl = Pronto x -> Forall eventoSeguro l ->
  iniciarApp (localStorageApp (correrApp x l)) cl'
  = Pronto {| tarefasApp := tarefasApp (correrApp x l);
              filtroApp := JS.str "todas";
              pendenteApp := false;
              temaApp := temaApp (correrApp x l);
              temaVistoApp := temaApp (correrApp x l);
              classListApp := if decide (temaApp (correrApp x l) = escuro)
                              then {[dark]} ∪ cl' else cl';
              localStorageApp := localStorageApp (correrApp x l) |}.
Proof.
  intros Hi Hl. apply iniciarApp_Pronto in Hi.
  assert (Hf : appRecarregavel (correrApp x l)).
  { unfold correrApp. revert x Hi. induction Hl as [|e l He _ IH]; intros x Hx; [done|].
    simpl. by apply IH, appRecarregavel_passoApp. }
  destruct Hf as (_ & _ & _ & Hr & Hg).
  unfold iniciarApp. unfold recarregavel in Hr. simpl in Hr. rewrite Hr.
  unfold useTema. simpl. by rewrite Hg.
Qed.

Lemma correrApp_sincronizada_witness :
  appSincronizada
    (correrApp (correrApp appVazia [NasTarefas (Adicionar 5 (JS.str "a")); CliqueTema])
       [CliqueTema; NasTarefas (Remover 5); NasTarefas (Filtrar (JS.str "ativas"))]).
Proof.
  apply (correrApp_sincronizada
           (correrApp appVazia [NasTarefas (Adicionar 5 (JS.str "a")); CliqueTema])
           [CliqueTema; NasTarefas (Remover 5); NasTarefas (Filtrar (JS.str "ativas"))]).
  split; [reflexivity|]. split; [reflexivity|].
  split; [reflexivity|]. split; [reflexivity|].
  split; [reflexivity|]. intros _.
  match goal with |- ?G => apply (@bool_decide_unpack G _) end. vm_compute. exact I.
Defined.

Lemma iniciarApp_recarrega_witness :
  iniciarApp
    (localStorageApp (correrApp appVazia [NasTarefas (Adicionar 5 (JS.str "a")); CliqueTema])) ∅
  = Pronto {| tarefasApp := tarefasApp (correrApp appVazia [NasTarefas (Adicionar 5 (JS.str "a")); CliqueTema]);
              filtroApp := JS.str "todas";
              pendenteApp := false;
              temaApp := temaApp (correrApp appVazia [NasTarefas (Adicionar 5 (JS.str "a")); CliqueTema]);
              temaVistoApp := temaApp (correrApp appVazia [NasTarefas (Adicionar 5 (JS.str "a")); CliqueTema]);
              classListApp :=
                if decide (temaApp (correrApp appVazia [NasTarefas (Adicionar 5 (JS.str "a")); CliqueTema]) = escuro)
                then {[dark]} ∪ ∅ else ∅;
              localStorageApp :=
                localStorageApp (correrApp appVazia [NasTarefas (Adicionar 5 (JS.str "a")); CliqueTema]) |}.
Proof.
  apply (iniciarApp_recarrega ∅ ∅ ∅ appVazia
           [NasTarefas (Adicionar 5 (JS.str "a")); CliqueTema]).
  - reflexivity.
  - repeat constructor. vm_compute. discriminate.
Defined.
